(** * RPC utilities of src/rpc/util.cpp

    A shallow embedding of the help-text renderer ([RPCHelpMan::ToString],
    [RPCArg::ToString], [RPCArg::ToStringObj]), of the key resolvers
    ([HexToPubKey], [AddrToPubKey]), of [CreateMultisigRedeemscript] and of
    [DescribeAddress], followed by the properties proved about them. *)

From Stdlib Require Import String Ascii List ZArith Lia Bool.
From Stdlib.Strings Require Import Byte.
From Stdlib Require Import DecimalString Decimal.
Import ListNotations.
Open Scope string_scope.

Set Warnings "-register-all".

(** ** Outcomes

    A C++ call either returns a value or leaves through a raised exception or
    a failed [assert].  Both are modelled by a sum: [inr v] is the returned
    value, [inl e] the reason no value was returned. *)

Module Outcome.

Definition t (E A : Type) : Type := (E + A)%type.

Definition ret {E A} (a : A) : t E A := inr a.
Definition fail {E A} (e : E) : t E A := inl e.

Definition bind {E A B} (c : t E A) (k : A -> t E B) : t E B :=
  match c with
  | inl e => inl e
  | inr a => k a
  end.

Definition returns {E A} (c : t E A) : Prop := exists a, c = inr a.

End Outcome.

Notation "x <- c ;; k" := (Outcome.bind c (fun x => k))
  (at level 61, c at next level, right associativity).

(** ** Help rendering *)

Module Help.

(** [RPCArg::Type] *)
Inductive Type_ : Set :=
| OBJ | ARR | STR | NUM | BOOL | OBJ_USER_KEYS | AMOUNT | STR_HEX.

(** [struct RPCArg]: the children of a composite argument are themselves
    arguments. *)
Inductive RPCArg : Set :=
  mkRPCArg (m_name : string) (m_type : Type_) (m_inner : list RPCArg)
           (m_optional : bool).

Definition m_name (a : RPCArg) : string :=
  let 'mkRPCArg n _ _ _ := a in n.
Definition m_type (a : RPCArg) : Type_ :=
  let 'mkRPCArg _ t _ _ := a in t.
Definition m_inner (a : RPCArg) : list RPCArg :=
  let 'mkRPCArg _ _ i _ := a in i.
Definition m_optional (a : RPCArg) : bool :=
  let 'mkRPCArg _ _ _ o := a in o.

(** The assertions of the renderer.  A failed [assert] stops the process
    and names the failed expression and its place, so the three sites are
    told apart:
    - [assert_not_is_optional]: [assert(!is_optional)] in
      [RPCHelpMan::ToString], a required argument after an optional one;
    - [assert_obj_unused]: the [assert(false)] under [case Type::OBJ] and
      [case Type::OBJ_USER_KEYS] of [RPCArg::ToStringObj];
    - [assert_unreachable]: the [assert(false)] after a [switch], reached
      by no enumerator. *)
Inductive Abort : Set :=
| assert_not_is_optional
| assert_obj_unused
| assert_unreachable.

Definition rendered : Type := Outcome.t Abort string.

Definition quote : string := String (ascii_of_nat 34) EmptyString.
Definition newline : string := String (ascii_of_nat 10) EmptyString.

(** [RPCArg::ToString] and [RPCArg::ToStringObj].  The loops over
    [m_inner] are the local [fix]es: [each] is the range-for that appends
    [i.ToString() + ","], [joined] the index loop that appends
    [m_inner[i].ToStringObj()] and a comma unless it was the last. *)
Fixpoint ToString (a : RPCArg) {struct a} : rendered :=
  match a with
  | mkRPCArg name type inner _ =>
      match type with
      | STR_HEX | STR => Outcome.ret (quote ++ name ++ quote)
      | NUM | AMOUNT | BOOL => Outcome.ret name
      | OBJ | OBJ_USER_KEYS =>
          res <- (fix joined (l : list RPCArg) (res : string) : rendered :=
                    match l with
                    | [] => Outcome.ret res
                    | x :: rest =>
                        s <- ToStringObj x ;;
                        joined rest
                          (match rest with
                           | [] => res ++ s
                           | _ :: _ => (res ++ s) ++ ","
                           end)
                    end) inner "" ;;
          match type with
          | OBJ => Outcome.ret ("{" ++ res ++ "}")
          | _ => Outcome.ret ("{" ++ res ++ ",...}")
          end
      | ARR =>
          res <- (fix each (l : list RPCArg) (res : string) : rendered :=
                    match l with
                    | [] => Outcome.ret res
                    | i :: rest =>
                        s <- ToString i ;;
                        each rest (res ++ (s ++ ","))
                    end) inner "" ;;
          Outcome.ret ("[" ++ res ++ "...]")
      end
  end
with ToStringObj (a : RPCArg) {struct a} : rendered :=
  match a with
  | mkRPCArg name type inner _ =>
      let res := quote ++ name ++ quote ++ ":" in
      match type with
      | STR => Outcome.ret (res ++ quote ++ "str" ++ quote)
      | STR_HEX => Outcome.ret (res ++ quote ++ "hex" ++ quote)
      | NUM => Outcome.ret (res ++ "n")
      | AMOUNT => Outcome.ret (res ++ "amount")
      | BOOL => Outcome.ret (res ++ "bool")
      | ARR =>
          res <- (fix each (l : list RPCArg) (res : string) : rendered :=
                    match l with
                    | [] => Outcome.ret res
                    | i :: rest =>
                        s <- ToString i ;;
                        each rest (res ++ (s ++ ","))
                    end) inner (res ++ "[") ;;
          Outcome.ret (res ++ "...]")
      | OBJ | OBJ_USER_KEYS => Outcome.fail assert_obj_unused
      end
  end.

(** The types whose token is the bare name: the [NUM], [AMOUNT], [BOOL]
    arm of [RPCArg::ToString]. *)
Definition bare_name (t : Type_) : bool :=
  match t with
  | NUM | AMOUNT | BOOL => true
  | _ => false
  end.

(** [class RPCHelpMan]: a command name and its ordered arguments. *)
Record RPCHelpMan : Set := mkRPCHelpMan {
  hm_name : string;
  hm_args : list RPCArg
}.

(** The state of the loop of [RPCHelpMan::ToString]: the text so far and
    the flag [is_optional]. *)
Record scan : Set := mkScan { ret : string; is_optional : bool }.

(** One iteration of the loop body. *)
Definition scan_arg (st : scan) (arg : RPCArg) : Outcome.t Abort scan :=
  let r := ret st ++ " " in
  st' <- (if m_optional arg
          then Outcome.ret
                 (mkScan (if is_optional st then r else r ++ "( ") true)
          else if is_optional st
               then Outcome.fail assert_not_is_optional
               else Outcome.ret (mkScan r (is_optional st))) ;;
  s <- ToString arg ;;
  Outcome.ret (mkScan (ret st' ++ s) (is_optional st')).

Fixpoint scan_args (st : scan) (args : list RPCArg) : Outcome.t Abort scan :=
  match args with
  | [] => Outcome.ret st
  | arg :: rest => st' <- scan_arg st arg ;; scan_args st' rest
  end.

(** [RPCHelpMan::ToString] *)
Definition RPCHelpMan_ToString (h : RPCHelpMan) : rendered :=
  st <- scan_args (mkScan ("" ++ hm_name h) false) (hm_args h) ;;
  let r := if is_optional st then ret st ++ " )" else ret st in
  Outcome.ret (r ++ newline).

End Help.

(** ** Keys, destinations and the multisig redeem script *)

Module Keys.

(** *** Data *)

(** [CPubKey]: the stored bytes of a public key. *)
Record CPubKey : Set := mkCPubKey { vch : list byte }.

(** [uint160], the payload of [CKeyID] and [CScriptID]. *)
Definition uint160 : Set := list byte.

Record CKeyID : Set := mkCKeyID { keyid_blob : uint160 }.
Record CScriptID : Set := mkCScriptID { scriptid_blob : uint160 }.

(** [CTxDestination], a [boost::variant] of three alternatives. *)
Inductive CTxDestination : Set :=
| CNoDestination
| KeyDest (keyID : CKeyID)
| ScriptDest (scriptID : CScriptID).

(** [CScript]: the serialized bytes; [size()] is their number. *)
Definition CScript : Set := list byte.

(** [enum RPCErrorCode] of rpc/protocol.h, the enumerators used here. *)
Inductive RPCErrorCode : Set :=
| RPC_INTERNAL_ERROR
| RPC_INVALID_PARAMETER
| RPC_INVALID_ADDRESS_OR_KEY.

(** What [throw JSONRPCError(code, message)] raises. *)
Record RPCError : Set := JSONRPCError {
  code : RPCErrorCode;
  message : string
}.

Definition result (A : Type) : Type := Outcome.t RPCError A.

(** *** Numbers as the code reads and prints them *)

(** [(int)n] for a [size_t] n: the low 32 bits, read as two's complement. *)
Definition int_of_size (n : nat) : Z :=
  (Z.of_nat n + 2 ^ 31) mod 2 ^ 32 - 2 ^ 31.

(** tinyformat prints an integer argument in decimal whatever the
    conversion letter: [%u] and [%d] of a [size_t], [%d] of an [int]. *)
Definition dec_size (n : nat) : string :=
  NilEmpty.string_of_uint (Nat.to_uint n).
Definition dec_int (z : Z) : string :=
  NilZero.string_of_int (Z.to_int z).

(** *** The collaborators

    Everything util.cpp calls but does not define: the hex helpers of
    util/strencodings.h, [CPubKey] of pubkey.h, the address codec of
    key_io.h, the key store of keystore.h and the script template and
    limit of script/. *)
Class Externals : Type := {
  CChainParams : Type;
  CKeyStore : Type;
  IsHex : string -> bool;
  ParseHex : string -> list byte;
  (** the constructor [CPubKey(const std::vector<uint8_t> &)] *)
  CPubKey_of_bytes : list byte -> CPubKey;
  IsFullyValid : CPubKey -> bool;
  DecodeDestination : string -> CChainParams -> CTxDestination;
  IsValidDestination : CTxDestination -> bool;
  GetKeyForDestination : CKeyStore -> CTxDestination -> CKeyID;
  (** [CKeyID::IsNull] *)
  IsNull : CKeyID -> bool;
  (** [CKeyStore::GetPubKey(key, out)]: [Some] is [true] with the key
      written to [out], [None] is [false]. *)
  GetPubKey : CKeyStore -> CKeyID -> option CPubKey;
  GetScriptForMultisig : Z -> list CPubKey -> CScript;
  MAX_SCRIPT_ELEMENT_SIZE : nat
}.

Section Resolvers.

Context {X : Externals}.

(** The error of both [throw]s of [HexToPubKey]. *)
Definition invalid_public_key (hex_in : string) : RPCError :=
  JSONRPCError RPC_INVALID_ADDRESS_OR_KEY ("Invalid public key: " ++ hex_in).

(** [HexToPubKey] *)
Definition HexToPubKey (hex_in : string) : result CPubKey :=
  if negb (IsHex hex_in) then
    Outcome.fail
      (JSONRPCError RPC_INVALID_ADDRESS_OR_KEY
         ("Invalid public key: " ++ hex_in))
  else
    let vchPubKey := CPubKey_of_bytes (ParseHex hex_in) in
    if negb (IsFullyValid vchPubKey) then
      Outcome.fail
        (JSONRPCError RPC_INVALID_ADDRESS_OR_KEY
           ("Invalid public key: " ++ hex_in))
    else Outcome.ret vchPubKey.

(** The four errors of [AddrToPubKey], in the order of its checks. *)
Definition invalid_address (addr_in : string) : RPCError :=
  JSONRPCError RPC_INVALID_ADDRESS_OR_KEY ("Invalid address: " ++ addr_in).
Definition not_a_key (addr_in : string) : RPCError :=
  JSONRPCError RPC_INVALID_ADDRESS_OR_KEY
    (addr_in ++ " does not refer to a key").
Definition no_full_key (addr_in : string) : RPCError :=
  JSONRPCError RPC_INVALID_ADDRESS_OR_KEY
    ("no full public key for address " ++ addr_in).
Definition invalid_wallet_key : RPCError :=
  JSONRPCError RPC_INTERNAL_ERROR "Wallet contains an invalid public key".

(** [AddrToPubKey] *)
Definition AddrToPubKey (chainparams : CChainParams) (keystore : CKeyStore)
           (addr_in : string) : result CPubKey :=
  let dest := DecodeDestination addr_in chainparams in
  if negb (IsValidDestination dest) then
    Outcome.fail (invalid_address addr_in)
  else
    let key := GetKeyForDestination keystore dest in
    if IsNull key then Outcome.fail (not_a_key addr_in)
    else
      match GetPubKey keystore key with
      | None => Outcome.fail (no_full_key addr_in)
      | Some vchPubKey =>
          if negb (IsFullyValid vchPubKey) then
            Outcome.fail invalid_wallet_key
          else Outcome.ret vchPubKey
      end.

(** The four errors of [CreateMultisigRedeemscript]. *)
Definition threshold_below_one : RPCError :=
  JSONRPCError RPC_INVALID_PARAMETER
    "a multisignature address must require at least one key to redeem".
Definition not_enough_keys (got : nat) (required : Z) : RPCError :=
  JSONRPCError RPC_INVALID_PARAMETER
    ("not enough keys supplied (got " ++ dec_size got
       ++ " keys, but need at least " ++ dec_int required
       ++ " to redeem)").
Definition more_than_16_keys : RPCError :=
  JSONRPCError RPC_INVALID_PARAMETER
    ("Number of keys involved in the multisignature address creation > 16"
       ++ Help.newline ++ "Reduce the number").
Definition script_too_large (size limit : nat) : RPCError :=
  JSONRPCError RPC_INVALID_PARAMETER
    ("redeemScript exceeds size limit: " ++ dec_size size
       ++ " > " ++ dec_size limit).

(** [CreateMultisigRedeemscript] *)
Definition CreateMultisigRedeemscript (required : Z)
           (pubkeys : list CPubKey) : result CScript :=
  if (required <? 1)%Z then Outcome.fail threshold_below_one
  else if (int_of_size (length pubkeys) <? required)%Z then
    Outcome.fail (not_enough_keys (length pubkeys) required)
  else if (16 <? length pubkeys)%nat then Outcome.fail more_than_16_keys
  else
    let result := GetScriptForMultisig required pubkeys in
    if (MAX_SCRIPT_ELEMENT_SIZE <? length result)%nat then
      Outcome.fail
        (script_too_large (length result) MAX_SCRIPT_ELEMENT_SIZE)
    else Outcome.ret result.

(** Two errors are the same report about their inputs when they carry
    the same code and the same message text around the echoed input. *)
Definition same_report (in1 in2 : string) (e1 e2 : RPCError) : Prop :=
  code e1 = code e2
  /\ exists text, message e1 = text ++ in1 /\ message e2 = text ++ in2.

End Resolvers.

(** *** Describing a destination *)

(** [UniValue] of the univalue library: a JSON value.  An object keeps its
    members in insertion order. *)
Inductive UniValue : Set :=
| VNULL
| VBOOL (b : bool)
| VNUM (digits : string)
| VSTR (s : string)
| VARR (items : list UniValue)
| VOBJ (members : list (string * UniValue)).

(** [UniValue::pushKV]: on an object, the value of an existing key is
    replaced and a new key is appended; on anything else nothing happens. *)
Fixpoint put_member (key : string) (val : UniValue)
         (members : list (string * UniValue)) : list (string * UniValue) :=
  match members with
  | [] => [(key, val)]
  | (k, v) :: rest =>
      if String.eqb k key then (k, val) :: rest
      else (k, v) :: put_member key val rest
  end.

Definition pushKV (obj : UniValue) (key : string) (val : UniValue)
  : UniValue :=
  match obj with
  | VOBJ members => VOBJ (put_member key val members)
  | other => other
  end.

(** [DescribeAddressVisitor::operator()], one clause per alternative, and
    [DescribeAddress], which applies the visitor. *)
Definition DescribeAddress (dest : CTxDestination) : UniValue :=
  match dest with
  | CNoDestination => VOBJ []
  | KeyDest keyID =>
      let obj := VOBJ [] in
      pushKV obj "isscript" (VBOOL false)
  | ScriptDest scriptID =>
      let obj := VOBJ [] in
      pushKV obj "isscript" (VBOOL true)
  end.

End Keys.

(** ** A concrete set of collaborators

    Small executable stand-ins for the code util.cpp links against, used to
    run the functions above on concrete inputs.  The general theorems do not
    depend on them: they hold for every [Keys.Externals]. *)

Module Sample.
Import Keys.

Definition byte_of_N (n : N) : byte :=
  match Byte.of_N n with
  | Some b => b
  | None => x00
  end.

(** [HexDigit]: the value of a hexadecimal digit. *)
Definition HexDigit (c : ascii) : option N :=
  let n := N_of_ascii c in
  if ((48 <=? n) && (n <=? 57))%N then Some (n - 48)%N
  else if ((97 <=? n) && (n <=? 102))%N then Some (n - 87)%N
  else if ((65 <=? n) && (n <=? 70))%N then Some (n - 55)%N
  else None.

Fixpoint all_hex (s : string) : bool :=
  match s with
  | EmptyString => true
  | String c rest =>
      match HexDigit c with
      | Some _ => all_hex rest
      | None => false
      end
  end.

(** [IsHex]: only hexadecimal digits, a positive and even number of them. *)
Definition IsHex (s : string) : bool :=
  all_hex s && (0 <? String.length s)%nat && Nat.even (String.length s).

(** [ParseHex] on digit pairs; it stops at the first character that does
    not start a pair. *)
Fixpoint ParseHex (s : string) : list byte :=
  match s with
  | String c1 (String c2 rest) =>
      match HexDigit c1, HexDigit c2 with
      | Some h, Some l => byte_of_N (16 * h + l) :: ParseHex rest
      | _, _ => []
      end
  | _ => []
  end.

(** [CPubKey::GetLen]: the length a header byte announces. *)
Definition GetLen (chHeader : byte) : nat :=
  match Byte.to_N chHeader with
  | 2%N | 3%N => 33
  | 4%N | 6%N | 7%N => 65
  | _ => 0
  end.

(** [CPubKey::Set]: bytes of the announced length are kept, anything else
    leaves the invalidated key, whose [size()] is 0: it has no bytes. *)
Definition CPubKey_of_bytes (bytes : list byte) : CPubKey :=
  match bytes with
  | [] => mkCPubKey []
  | header :: _ =>
      if ((0 <? GetLen header) && (GetLen header =? length bytes))%nat
      then mkCPubKey bytes
      else mkCPubKey []
  end.

(** Stand-in for [CPubKey::IsFullyValid]: the size check of [IsValid]
    only; the curve-point parse of the real function is left out.  The
    sample keys below are points of the curve, so the real function
    accepts them as well. *)
Definition IsFullyValid (k : CPubKey) : bool :=
  match vch k with
  | [] => false
  | header :: _ => (0 <? GetLen header)%nat
  end.

Definition bytes_eqb (a b : list byte) : bool :=
  (length a =? length b)%nat
  && forallb (fun p => Byte.eqb (fst p) (snd p)) (combine a b).

(** The sample network knows two addresses. *)
Definition key_hash : uint160 := repeat x11 20.
Definition script_hash : uint160 := repeat x22 20.
Definition lost_key_hash : uint160 := repeat x33 20.
Definition bad_key_hash : uint160 := repeat x44 20.

Definition DecodeDestination (str : string) (_ : unit) : CTxDestination :=
  if String.eqb str "key-address" then KeyDest (mkCKeyID key_hash)
  else if String.eqb str "script-address" then
    ScriptDest (mkCScriptID script_hash)
  else if String.eqb str "lost-key-address" then
    KeyDest (mkCKeyID lost_key_hash)
  else if String.eqb str "bad-key-address" then
    KeyDest (mkCKeyID bad_key_hash)
  else CNoDestination.

Definition IsValidDestination (dest : CTxDestination) : bool :=
  match dest with
  | CNoDestination => false
  | _ => true
  end.

(** A key store: the public keys it holds, by key id. *)
Definition Store : Type := list (uint160 * CPubKey).

Definition GetKeyForDestination (_ : Store) (dest : CTxDestination)
  : CKeyID :=
  match dest with
  | KeyDest id => id
  | _ => mkCKeyID (repeat x00 20)
  end.

Definition IsNull (id : CKeyID) : bool :=
  forallb (fun b => Byte.eqb b x00) (keyid_blob id).

Fixpoint GetPubKey (store : Store) (id : CKeyID) : option CPubKey :=
  match store with
  | [] => None
  | (h, k) :: rest =>
      if bytes_eqb h (keyid_blob id) then Some k else GetPubKey rest id
  end.

(** [CScript::EncodeOP_N] and the push of at most 75 bytes. *)
Definition EncodeOP_N (n : Z) : byte :=
  if (n =? 0)%Z then x00 else byte_of_N (Z.to_N (80 + n)).
Definition push_bytes (data : list byte) : list byte :=
  byte_of_N (N.of_nat (length data)) :: data.

Definition OP_CHECKMULTISIG : byte := xae.

(** [GetScriptForMultisig]: the count required, each key pushed in the
    order given, the number of keys, [OP_CHECKMULTISIG]. *)
Definition GetScriptForMultisig (nRequired : Z) (keys : list CPubKey)
  : CScript :=
  ([EncodeOP_N nRequired]
     ++ flat_map (fun k => push_bytes (vch k)) keys
     ++ [EncodeOP_N (Z.of_nat (length keys)); OP_CHECKMULTISIG])%list.

#[export] Instance externals : Externals := {|
  Keys.CChainParams := unit;
  Keys.CKeyStore := Store;
  Keys.IsHex := IsHex;
  Keys.ParseHex := ParseHex;
  Keys.CPubKey_of_bytes := CPubKey_of_bytes;
  Keys.IsFullyValid := IsFullyValid;
  Keys.DecodeDestination := DecodeDestination;
  Keys.IsValidDestination := IsValidDestination;
  Keys.GetKeyForDestination := GetKeyForDestination;
  Keys.IsNull := IsNull;
  Keys.GetPubKey := GetPubKey;
  Keys.GetScriptForMultisig := GetScriptForMultisig;
  Keys.MAX_SCRIPT_ELEMENT_SIZE := 520
|}.

(** Sample keys: a compressed encoding, and the uncompressed encoding of
    the generator of secp256k1. *)
Definition compressed_key : CPubKey := mkCPubKey (x02 :: repeat x01 32).
Definition uncompressed_key : CPubKey :=
  mkCPubKey
    (ParseHex
       ("04"
          ++ "79be667ef9dcbbac55a06295ce870b07029bfcdb2dce28d959f2815b16f81798"
          ++ "483ada7726a3c4655da4fbfc0e1108a8fd17b448a68554199c47d08ffb10d4b8")).

(** The sample store holds the key of "key-address" and an invalidated
    key under the id of "bad-key-address". *)
Definition store : Store :=
  [(key_hash, compressed_key); (bad_key_hash, mkCPubKey [])].

End Sample.

(** ** The loops and shapes of the renderer, by name *)

Module HelpShape.
Import Help.

(** The range-for of [RPCArg::ToString] and [RPCArg::ToStringObj] under
    [case Type::ARR]: [res += i.ToString() + ","] for each child. *)
Fixpoint each (l : list RPCArg) (res : string) : rendered :=
  match l with
  | [] => Outcome.ret res
  | i :: rest => s <- ToString i ;; each rest (res ++ (s ++ ","))
  end.

(** The index loop of [RPCArg::ToString] under [case Type::OBJ]:
    [res += m_inner[i].ToStringObj()], then a comma unless [i] was the last
    index. *)
Fixpoint joined (l : list RPCArg) (res : string) : rendered :=
  match l with
  | [] => Outcome.ret res
  | x :: rest =>
      s <- ToStringObj x ;;
      joined rest
        (match rest with
         | [] => res ++ s
         | _ :: _ => (res ++ s) ++ ","
         end)
  end.

(** The two enumerators [RPCArg::ToStringObj] asserts on. *)
Definition is_object (t : Type_) : bool :=
  match t with
  | OBJ | OBJ_USER_KEYS => true
  | _ => false
  end.

(** No object sits directly inside an object, at any depth. *)
Fixpoint renderable (a : RPCArg) : bool :=
  match a with
  | mkRPCArg _ type inner _ =>
      match type with
      | OBJ | OBJ_USER_KEYS =>
          forallb (fun c => negb (is_object (m_type c)) && renderable c) inner
      | ARR => forallb renderable inner
      | _ => true
      end
  end.

(** The argument with every [m_optional], its own and those of all its
    descendants, set to [flag]. *)
Fixpoint with_optional (flag : bool) (a : RPCArg) : RPCArg :=
  match a with
  | mkRPCArg name type inner _ =>
      mkRPCArg name type (map (with_optional flag) inner) flag
  end.

(** Required arguments first: the list is a run of required arguments
    followed by a run of optional ones. *)
Definition required_then_optional (args : list RPCArg) : Prop :=
  exists reqs opts,
    args = (reqs ++ opts)%list
    /\ Forall (fun a => m_optional a = false) reqs
    /\ Forall (fun a => m_optional a = true) opts.

(** The text [RPCHelpMan::ToString] builds from the tokens of the required
    and of the optional arguments. *)
Definition signature_text (name : string) (required optional : list string)
  : string :=
  name ++ String.concat "" (map (fun t => " " ++ t) required)
    ++ match optional with
       | [] => ""
       | _ :: _ => " ( " ++ String.concat " " optional ++ " )"
       end
    ++ newline.

End HelpShape.

(** ** The alternative a destination holds *)

Module DestinationKind.
Import Keys.

(** [boost::variant::which()]: the index of the alternative held. *)
Definition which (dest : CTxDestination) : nat :=
  match dest with
  | CNoDestination => 0
  | KeyDest _ => 1
  | ScriptDest _ => 2
  end.

End DestinationKind.

(** ** Induction over nested arguments *)

Section ArgInduction.
Import Help.

Variable P : RPCArg -> Prop.
Hypothesis step :
  forall name type inner optional,
    Forall P inner -> P (mkRPCArg name type inner optional).

Fixpoint RPCArg_nested_ind (a : RPCArg) : P a :=
  match a with
  | mkRPCArg name type inner optional =>
      step name type inner optional
        ((fix all (l : list RPCArg) : Forall P l :=
            match l with
            | [] => Forall_nil P
            | x :: rest => Forall_cons x (RPCArg_nested_ind x) (all rest)
            end) inner)
  end.

End ArgInduction.

(** * Properties *)

(** ** Strings *)

Lemma append_assoc (a b c : string) : (a ++ b) ++ c = a ++ (b ++ c).
Proof.
  induction a as [|ch a IH]; simpl; [reflexivity | now rewrite IH].
Qed.

(** ** The signature line *)

Section Signature.
Import Help.

Lemma scan_args_app st l1 l2 :
  scan_args st (l1 ++ l2)
  = Outcome.bind (scan_args st l1) (fun st' => scan_args st' l2).
Proof.
  revert st; induction l1 as [|a l1 IH]; intros st; simpl.
  - reflexivity.
  - destruct (scan_arg st a) as [e|st1]; simpl; [reflexivity | apply IH].
Qed.

(** An iteration never clears [is_optional]. *)
Lemma scan_arg_keeps_flag st a st' :
  scan_arg st a = inr st' ->
  is_optional st' = (m_optional a || is_optional st)%bool.
Proof.
  unfold scan_arg.
  destruct (m_optional a), (is_optional st) eqn:Hf; simpl;
    try discriminate;
    destruct (ToString a); simpl; intros H; inversion H; subst;
    simpl; auto.
Qed.

Lemma scan_args_flag_sticky l : forall st st',
  scan_args st l = inr st' ->
  is_optional st = true -> is_optional st' = true.
Proof.
  induction l as [|a l IH]; simpl; intros st st' H Hf.
  - inversion H; subst; assumption.
  - destruct (scan_arg st a) as [e|st1] eqn:Ha; simpl in H;
      [discriminate|].
    apply (IH _ _ H).
    rewrite (scan_arg_keeps_flag _ _ _ Ha), Hf.
    apply orb_true_r.
Qed.

Lemma scan_args_sets_flag l : forall st st',
  scan_args st l = inr st' ->
  (exists a, In a l /\ m_optional a = true) ->
  is_optional st' = true.
Proof.
  induction l as [|a l IH]; simpl; intros st st' H [b [Hin Hb]].
  - contradiction.
  - destruct (scan_arg st a) as [e|st1] eqn:Ha; simpl in H;
      [discriminate|].
    destruct Hin as [<- | Hin].
    + apply (scan_args_flag_sticky _ _ _ H).
      rewrite (scan_arg_keeps_flag _ _ _ Ha), Hb. reflexivity.
    + apply (IH _ _ H). exists b. split; assumption.
Qed.

(** With the flag set, a required argument trips [assert(!is_optional)]
    before its token is rendered. *)
Lemma scan_arg_required_after_optional st a :
  is_optional st = true -> m_optional a = false ->
  scan_arg st a = Outcome.fail assert_not_is_optional.
Proof.
  intros Hf Ha. unfold scan_arg. rewrite Ha, Hf. reflexivity.
Qed.

(** When every token renders, the only abort of the scan is
    [assert(!is_optional)]. *)
Lemma scan_args_abort_kind l : forall st e,
  (forall a, In a l -> Outcome.returns (ToString a)) ->
  scan_args st l = inl e -> e = assert_not_is_optional.
Proof.
  induction l as [|a l IH]; simpl; intros st e Htok H.
  - discriminate.
  - destruct (scan_arg st a) as [e1|st1] eqn:Ha; simpl in H.
    + inversion H; subst e1. clear H.
      destruct (Htok a (or_introl eq_refl)) as [s Hs].
      unfold scan_arg in Ha. rewrite Hs in Ha.
      destruct (m_optional a), (is_optional st);
        cbv [Outcome.bind Outcome.ret Outcome.fail] in Ha; congruence.
    + apply (IH st1); [|assumption].
      intros b Hb. apply Htok. right. assumption.
Qed.

End Signature.

Section SignatureClaims.
Import Help.

(** The scan of three arguments, the first required and the next two
    optional, in terms of their tokens. *)
Lemma signature_one_required_two_optional name a b c ta tb tc :
  m_optional a = false -> m_optional b = true -> m_optional c = true ->
  ToString a = Outcome.ret ta -> ToString b = Outcome.ret tb ->
  ToString c = Outcome.ret tc ->
  RPCHelpMan_ToString (mkRPCHelpMan name [a; b; c])
  = Outcome.ret
      (name ++ " " ++ ta ++ " ( " ++ tb ++ " " ++ tc ++ " )" ++ newline).
Proof.
  intros Ha Hb Hc Hta Htb Htc.
  unfold RPCHelpMan_ToString, scan_args, scan_arg; simpl.
  rewrite Ha, Hb, Hc, Hta, Htb, Htc; simpl.
  unfold Outcome.ret. f_equal.
  repeat rewrite append_assoc. reflexivity.
Qed.

(** C1.  For the command "foo" and the arguments required_a (required),
    optional_b and optional_c (both optional), [RPCHelpMan::ToString]
    returns exactly "foo required_a ( optional_b optional_c )" followed by
    one line break.  The arguments are of the types whose token is the
    bare name (number, amount, boolean), whatever their children.  The
    second half places the markers for arguments of any type: "( " comes
    before the token of the first optional argument, " )" after the token
    of the last argument, and one line break ends the text. *)
Theorem signature_foo_example :
  (forall t1 t2 t3 i1 i2 i3,
      bare_name t1 = true -> bare_name t2 = true -> bare_name t3 = true ->
      RPCHelpMan_ToString
        (mkRPCHelpMan "foo"
           [mkRPCArg "required_a" t1 i1 false;
            mkRPCArg "optional_b" t2 i2 true;
            mkRPCArg "optional_c" t3 i3 true])
      = Outcome.ret
          ("foo required_a ( optional_b optional_c )" ++ newline))
  /\ (forall a b c ta tb tc,
         m_optional a = false -> m_optional b = true ->
         m_optional c = true ->
         ToString a = Outcome.ret ta -> ToString b = Outcome.ret tb ->
         ToString c = Outcome.ret tc ->
         RPCHelpMan_ToString (mkRPCHelpMan "foo" [a; b; c])
         = Outcome.ret
             ("foo " ++ ta ++ " ( " ++ tb ++ " " ++ tc ++ " )" ++ newline)).
Proof.
  split.
  - intros t1 t2 t3 i1 i2 i3 H1 H2 H3.
    destruct t1; try discriminate H1;
      destruct t2; try discriminate H2;
      destruct t3; try discriminate H3; reflexivity.
  - intros a b c ta tb tc Ha Hb Hc Hta Htb Htc.
    apply (signature_one_required_two_optional "foo"); assumption.
Qed.

Lemma signature_foo_example_witness :
  RPCHelpMan_ToString
    (mkRPCHelpMan "foo"
       [mkRPCArg "required_a" NUM [] false;
        mkRPCArg "optional_b" AMOUNT [] true;
        mkRPCArg "optional_c" BOOL [] true])
  = Outcome.ret ("foo required_a ( optional_b optional_c )" ++ newline)
  /\ RPCHelpMan_ToString
       (mkRPCHelpMan "foo"
          [mkRPCArg "required_a" STR [] false;
           mkRPCArg "optional_b" ARR [mkRPCArg "x" STR [] false] true;
           mkRPCArg "optional_c" BOOL [] true])
     = Outcome.ret
         ("foo " ++ (quote ++ "required_a" ++ quote)
            ++ " ( " ++ ("[" ++ quote ++ "x" ++ quote ++ ",...]")
            ++ " " ++ "optional_c" ++ " )" ++ newline).
Proof.
  split.
  - apply (proj1 signature_foo_example NUM AMOUNT BOOL [] [] []);
      reflexivity.
  - apply (proj2 signature_foo_example
             (mkRPCArg "required_a" STR [] false)
             (mkRPCArg "optional_b" ARR [mkRPCArg "x" STR [] false] true)
             (mkRPCArg "optional_c" BOOL [] true));
      reflexivity.
Defined.

(** C10.  With no arguments, [RPCHelpMan::ToString] returns the command
    name followed by one line break and nothing else: no separating
    space, no "( " and no " )". *)
Theorem signature_no_arguments :
  forall name,
    RPCHelpMan_ToString (mkRPCHelpMan name [])
    = Outcome.ret (name ++ newline).
Proof. intros name. reflexivity. Qed.

(** C6, as stated, fails: an optional argument of type object whose child
    is again an object is followed by a required argument, and the
    rendering stops at the [assert(false)] of [RPCArg::ToStringObj]
    while rendering the first token, before the required argument is
    looked at. *)
Lemma signature_required_after_optional_other_abort :
  m_optional (mkRPCArg "optional_a" OBJ [mkRPCArg "k" OBJ [] false] true)
  = true
  /\ m_optional (mkRPCArg "required_b" NUM [] false) = false
  /\ RPCHelpMan_ToString
       (mkRPCHelpMan "foo"
          [mkRPCArg "optional_a" OBJ [mkRPCArg "k" OBJ [] false] true;
           mkRPCArg "required_b" NUM [] false])
     = Outcome.fail assert_obj_unused
  /\ RPCHelpMan_ToString
       (mkRPCHelpMan "foo"
          [mkRPCArg "optional_a" OBJ [mkRPCArg "k" OBJ [] false] true;
           mkRPCArg "required_b" NUM [] false])
     <> Outcome.fail assert_not_is_optional.
Proof.
  repeat split; try reflexivity. discriminate.
Qed.

(** A required argument [r] after an optional one: no text is returned,
    and when the tokens before [r] render the reason is
    [assert(!is_optional)]. *)
Lemma required_after_optional_aborts :
  forall name pre r post,
    (exists a, In a pre /\ m_optional a = true) ->
    m_optional r = false ->
    (exists e,
        RPCHelpMan_ToString (mkRPCHelpMan name (pre ++ r :: post))
        = Outcome.fail e)
    /\ ((forall a, In a pre -> Outcome.returns (ToString a)) ->
        RPCHelpMan_ToString (mkRPCHelpMan name (pre ++ r :: post))
        = Outcome.fail assert_not_is_optional).
Proof.
  intros name pre r post Hopt Hr.
  unfold RPCHelpMan_ToString; simpl hm_args; simpl hm_name.
  rewrite scan_args_app.
  destruct (scan_args (mkScan ("" ++ name) false) pre) as [e|st] eqn:Hpre.
  - split.
    + exists e. reflexivity.
    + intros Htok.
      rewrite (scan_args_abort_kind _ _ _ Htok Hpre). reflexivity.
  - pose proof (scan_args_sets_flag _ _ _ Hpre Hopt) as Hflag.
    assert (Hstop : Outcome.bind
              (Outcome.bind (inr st)
                 (fun st' => scan_args st' (r :: post)))
              (fun st0 =>
                 Outcome.ret
                   ((if is_optional st0 then ret st0 ++ " )" else ret st0)
                      ++ newline))
            = Outcome.fail assert_not_is_optional).
    { simpl.
      rewrite (scan_arg_required_after_optional _ _ Hflag Hr).
      reflexivity. }
    split; [exists assert_not_is_optional|intros _]; exact Hstop.
Qed.

End SignatureClaims.

(** ** The structural form of an argument *)

Section StructureClaims.
Import Help.

(** C7, as stated, fails: the code puts no space after the colon. *)
Lemma structure_no_space_after_colon :
  ToStringObj (mkRPCArg "x" STR [] false)
  <> Outcome.ret (quote ++ "x" ++ quote ++ ": " ++ quote ++ "str" ++ quote)
  /\ ToStringObj (mkRPCArg "x" NUM [] false)
     <> Outcome.ret (quote ++ "x" ++ quote ++ ": " ++ "n").
Proof. split; discriminate. Qed.

(** C7, amended.  For every argument of a non-composite type with name
    <name>, [RPCArg::ToStringObj] returns the quoted name, a colon and,
    with no space in between, the tag of the type: "str" and "hex" in
    quotes for string and hex-string, n, amount and bool for number,
    amount and boolean. *)
Theorem structure_of_simple_types :
  forall name inner optional,
    ToStringObj (mkRPCArg name STR inner optional)
    = Outcome.ret (quote ++ name ++ quote ++ ":" ++ quote ++ "str" ++ quote)
    /\ ToStringObj (mkRPCArg name STR_HEX inner optional)
       = Outcome.ret
           (quote ++ name ++ quote ++ ":" ++ quote ++ "hex" ++ quote)
    /\ ToStringObj (mkRPCArg name NUM inner optional)
       = Outcome.ret (quote ++ name ++ quote ++ ":" ++ "n")
    /\ ToStringObj (mkRPCArg name AMOUNT inner optional)
       = Outcome.ret (quote ++ name ++ quote ++ ":" ++ "amount")
    /\ ToStringObj (mkRPCArg name BOOL inner optional)
       = Outcome.ret (quote ++ name ++ quote ++ ":" ++ "bool").
Proof.
  intros name inner optional; simpl; unfold Outcome.ret.
  repeat split; f_equal; repeat rewrite append_assoc; reflexivity.
Qed.

(** C8.  For every argument of type object or object-with-free-form-keys
    [RPCArg::ToStringObj] stops at its [assert(false)] and returns no
    text, whatever the name, the children and the optional flag. *)
Theorem structure_of_object_unsupported :
  forall a,
    m_type a = OBJ \/ m_type a = OBJ_USER_KEYS ->
    ToStringObj a = Outcome.fail assert_obj_unused
    /\ forall text, ToStringObj a <> Outcome.ret text.
Proof.
  intros [name type inner optional] H; simpl in H.
  destruct H as [-> | ->]; simpl; split;
    try reflexivity; intros text; discriminate.
Qed.

Lemma structure_of_object_unsupported_witness :
  ToStringObj (mkRPCArg "options" OBJ [mkRPCArg "x" STR [] false] false)
  = Outcome.fail assert_obj_unused
  /\ ToStringObj (mkRPCArg "options" OBJ_USER_KEYS [] true)
     = Outcome.fail assert_obj_unused.
Proof.
  split.
  - apply (structure_of_object_unsupported
             (mkRPCArg "options" OBJ [mkRPCArg "x" STR [] false] false)).
    left; reflexivity.
  - apply (structure_of_object_unsupported
             (mkRPCArg "options" OBJ_USER_KEYS [] true)).
    right; reflexivity.
Defined.

End StructureClaims.

(** ** Keys and scripts *)

Section Arithmetic.
Import Keys.

(** Below 2^31 the cast [(int)n] changes nothing. *)
Lemma int_of_size_small n :
  (Z.of_nat n < 2 ^ 31)%Z -> int_of_size n = Z.of_nat n.
Proof.
  intros H. unfold int_of_size.
  rewrite Z.mod_small; lia.
Qed.

End Arithmetic.

Section KeyClaims.
Import Keys.
Context {X : Externals}.

(** C5, amended.  [HexToPubKey] fails on every input that is not
    well-formed hexadecimal, and on every well-formed hexadecimal input
    whose bytes are not a fully valid key, and in both cases with one and
    the same error: code [RPC_INVALID_ADDRESS_OR_KEY] and the message
    "Invalid public key: " followed by the input.  Nothing in the error
    tells the two failures apart.  Every other input returns the key. *)
Theorem HexToPubKey_single_error :
  forall hex_in,
    (IsHex hex_in = false ->
     HexToPubKey hex_in = Outcome.fail (invalid_public_key hex_in))
    /\ (IsHex hex_in = true ->
        IsFullyValid (CPubKey_of_bytes (ParseHex hex_in)) = false ->
        HexToPubKey hex_in = Outcome.fail (invalid_public_key hex_in))
    /\ (IsHex hex_in = true ->
        IsFullyValid (CPubKey_of_bytes (ParseHex hex_in)) = true ->
        HexToPubKey hex_in
        = Outcome.ret (CPubKey_of_bytes (ParseHex hex_in))).
Proof.
  intros hex_in. unfold HexToPubKey, invalid_public_key.
  repeat split.
  - intros ->. reflexivity.
  - intros -> ->. reflexivity.
  - intros -> ->. reflexivity.
Qed.

(** C4.  [AddrToPubKey] checks in this order: the decoded destination is
    valid, else "Invalid address"; the destination refers to a key, else
    "does not refer to a key"; the store has the full key, else "no full
    public key"; the fetched key is fully valid, else "Wallet contains an
    invalid public key".  Each failure depends on the earlier checks
    only.  The first three carry [RPC_INVALID_ADDRESS_OR_KEY], the last
    [RPC_INTERNAL_ERROR], a different code.  When all four checks pass
    the fetched key is returned. *)
Theorem AddrToPubKey_check_order :
  forall chainparams keystore addr_in,
    let dest := DecodeDestination addr_in chainparams in
    let key := GetKeyForDestination keystore dest in
    (IsValidDestination dest = false ->
     AddrToPubKey chainparams keystore addr_in
     = Outcome.fail
         (JSONRPCError RPC_INVALID_ADDRESS_OR_KEY
            ("Invalid address: " ++ addr_in)))
    /\ (IsValidDestination dest = true -> IsNull key = true ->
        AddrToPubKey chainparams keystore addr_in
        = Outcome.fail
            (JSONRPCError RPC_INVALID_ADDRESS_OR_KEY
               (addr_in ++ " does not refer to a key")))
    /\ (IsValidDestination dest = true -> IsNull key = false ->
        GetPubKey keystore key = None ->
        AddrToPubKey chainparams keystore addr_in
        = Outcome.fail
            (JSONRPCError RPC_INVALID_ADDRESS_OR_KEY
               ("no full public key for address " ++ addr_in)))
    /\ (forall vchPubKey,
           IsValidDestination dest = true -> IsNull key = false ->
           GetPubKey keystore key = Some vchPubKey ->
           IsFullyValid vchPubKey = false ->
           AddrToPubKey chainparams keystore addr_in
           = Outcome.fail
               (JSONRPCError RPC_INTERNAL_ERROR
                  "Wallet contains an invalid public key"))
    /\ (forall vchPubKey,
           IsValidDestination dest = true -> IsNull key = false ->
           GetPubKey keystore key = Some vchPubKey ->
           IsFullyValid vchPubKey = true ->
           AddrToPubKey chainparams keystore addr_in
           = Outcome.ret vchPubKey)
    /\ RPC_INTERNAL_ERROR <> RPC_INVALID_ADDRESS_OR_KEY.
Proof.
  intros chainparams keystore addr_in dest key.
  unfold AddrToPubKey. fold dest. fold key.
  repeat split.
  - intros ->. reflexivity.
  - intros -> ->. reflexivity.
  - intros -> -> ->. reflexivity.
  - intros vchPubKey -> -> -> ->. reflexivity.
  - intros vchPubKey -> -> -> ->. reflexivity.
  - discriminate.
Qed.

(** C2, amended.  With more than 16 keys, [CreateMultisigRedeemscript]
    fails with "Number of keys ... > 16" when 1 <= required and required
    is at most the number of keys (the count as the code compares it,
    cast to [int]).  The two earlier checks win otherwise: required < 1
    fails with "must require at least one key", and a count below
    required with "not enough keys supplied", however many keys there
    are. *)
Theorem CreateMultisigRedeemscript_too_many_keys :
  forall required pubkeys,
    (16 < length pubkeys ->
     (1 <= required)%Z ->
     (required <= int_of_size (length pubkeys))%Z ->
     CreateMultisigRedeemscript required pubkeys
     = Outcome.fail more_than_16_keys)
    /\ ((required < 1)%Z ->
        CreateMultisigRedeemscript required pubkeys
        = Outcome.fail threshold_below_one)
    /\ ((1 <= required)%Z ->
        (int_of_size (length pubkeys) < required)%Z ->
        CreateMultisigRedeemscript required pubkeys
        = Outcome.fail (not_enough_keys (length pubkeys) required)).
Proof.
  intros required pubkeys. unfold CreateMultisigRedeemscript.
  repeat split.
  - intros Hn H1 H2.
    destruct (Z.ltb_spec required 1); [lia|].
    destruct (Z.ltb_spec (int_of_size (length pubkeys)) required); [lia|].
    destruct (Nat.ltb_spec 16 (length pubkeys)); [reflexivity | lia].
  - intros H1.
    destruct (Z.ltb_spec required 1); [reflexivity | lia].
  - intros H1 H2.
    destruct (Z.ltb_spec required 1); [lia|].
    destruct (Z.ltb_spec (int_of_size (length pubkeys)) required);
      [reflexivity | lia].
Qed.

(** C3.  A script returned by [CreateMultisigRedeemscript] is at most
    [MAX_SCRIPT_ELEMENT_SIZE] bytes long and is the script
    [GetScriptForMultisig] built.  When the three count checks pass and
    the built script is longer than the limit, the call fails, returns no
    script, and its message is "redeemScript exceeds size limit: " with
    the size of the script, " > " and the limit, both in decimal. *)
Theorem CreateMultisigRedeemscript_size_limit :
  forall required pubkeys,
    (forall script,
        CreateMultisigRedeemscript required pubkeys = Outcome.ret script ->
        length script <= MAX_SCRIPT_ELEMENT_SIZE
        /\ script = GetScriptForMultisig required pubkeys)
    /\ ((1 <= required)%Z ->
        (required <= int_of_size (length pubkeys))%Z ->
        length pubkeys <= 16 ->
        MAX_SCRIPT_ELEMENT_SIZE
        < length (GetScriptForMultisig required pubkeys) ->
        CreateMultisigRedeemscript required pubkeys
        = Outcome.fail
            (JSONRPCError RPC_INVALID_PARAMETER
               ("redeemScript exceeds size limit: "
                  ++ dec_size
                       (length (GetScriptForMultisig required pubkeys))
                  ++ " > " ++ dec_size MAX_SCRIPT_ELEMENT_SIZE))
        /\ forall script,
            CreateMultisigRedeemscript required pubkeys
            <> Outcome.ret script).
Proof.
  intros required pubkeys. unfold CreateMultisigRedeemscript. split.
  - intros script.
    destruct (required <? 1)%Z; [discriminate|].
    destruct (int_of_size (length pubkeys) <? required)%Z; [discriminate|].
    destruct (16 <? length pubkeys)%nat; [discriminate|].
    destruct (Nat.ltb_spec MAX_SCRIPT_ELEMENT_SIZE
                (length (GetScriptForMultisig required pubkeys)));
      [discriminate|].
    intros Hret; inversion Hret; subst. split; [assumption | reflexivity].
  - intros H1 H2 H3 H4.
    destruct (Z.ltb_spec required 1); [lia|].
    destruct (Z.ltb_spec (int_of_size (length pubkeys)) required); [lia|].
    destruct (Nat.ltb_spec 16 (length pubkeys)); [lia|].
    destruct (Nat.ltb_spec MAX_SCRIPT_ELEMENT_SIZE
                (length (GetScriptForMultisig required pubkeys))); [|lia].
    split; [reflexivity | intros script; discriminate].
Qed.

End KeyClaims.

(** ** Concrete runs with the sample collaborators *)

Section KeyRuns.
Import Keys Sample.

Local Ltac by_running :=
  first [ reflexivity
        | discriminate
        | simpl; lia
        | vm_compute; lia
        | vm_compute; discriminate ].

(** C5, as stated, fails: "zz" is not hexadecimal, "00" is hexadecimal and
    is no valid key, and the two failures are the same report, code and
    message text alike. *)
Lemma HexToPubKey_failures_alike :
  IsHex "zz" = false
  /\ IsHex "00" = true
  /\ IsFullyValid (CPubKey_of_bytes (ParseHex "00")) = false
  /\ HexToPubKey "zz"
     = Outcome.fail
         (JSONRPCError RPC_INVALID_ADDRESS_OR_KEY "Invalid public key: zz")
  /\ HexToPubKey "00"
     = Outcome.fail
         (JSONRPCError RPC_INVALID_ADDRESS_OR_KEY "Invalid public key: 00")
  /\ same_report "zz" "00"
       (JSONRPCError RPC_INVALID_ADDRESS_OR_KEY "Invalid public key: zz")
       (JSONRPCError RPC_INVALID_ADDRESS_OR_KEY "Invalid public key: 00").
Proof.
  repeat split; try reflexivity.
  exists "Invalid public key: ". split; reflexivity.
Qed.

Lemma HexToPubKey_single_error_witness :
  HexToPubKey "zz" = Outcome.fail (invalid_public_key "zz")
  /\ HexToPubKey "00" = Outcome.fail (invalid_public_key "00")
  /\ HexToPubKey
       "020101010101010101010101010101010101010101010101010101010101010101"
     = Outcome.ret compressed_key.
Proof.
  split; [|split].
  - apply (proj1 (HexToPubKey_single_error "zz")). reflexivity.
  - apply (proj1 (proj2 (HexToPubKey_single_error "00"))); reflexivity.
  - exact (proj2 (proj2 (HexToPubKey_single_error
       "020101010101010101010101010101010101010101010101010101010101010101"))
             eq_refl eq_refl).
Defined.

Lemma AddrToPubKey_check_order_witness :
  AddrToPubKey tt store "no-such-address"
  = Outcome.fail
      (JSONRPCError RPC_INVALID_ADDRESS_OR_KEY
         "Invalid address: no-such-address")
  /\ AddrToPubKey tt store "script-address"
     = Outcome.fail
         (JSONRPCError RPC_INVALID_ADDRESS_OR_KEY
            "script-address does not refer to a key")
  /\ AddrToPubKey tt store "lost-key-address"
     = Outcome.fail
         (JSONRPCError RPC_INVALID_ADDRESS_OR_KEY
            "no full public key for address lost-key-address")
  /\ AddrToPubKey tt store "bad-key-address"
     = Outcome.fail
         (JSONRPCError RPC_INTERNAL_ERROR
            "Wallet contains an invalid public key")
  /\ AddrToPubKey tt store "key-address" = Outcome.ret compressed_key.
Proof.
  split; [|split; [|split; [|split]]].
  - apply (proj1 (AddrToPubKey_check_order (X:=externals) tt store "no-such-address")).
    reflexivity.
  - apply (proj1 (proj2 (AddrToPubKey_check_order (X:=externals) tt store "script-address")));
      reflexivity.
  - apply (proj1 (proj2 (proj2
             (AddrToPubKey_check_order (X:=externals) tt store "lost-key-address"))));
      reflexivity.
  - apply (proj1 (proj2 (proj2 (proj2
             (AddrToPubKey_check_order (X:=externals) tt store "bad-key-address"))))
             (mkCPubKey []));
      reflexivity.
  - apply (proj1 (proj2 (proj2 (proj2 (proj2
             (AddrToPubKey_check_order (X:=externals) tt store "key-address")))))
             compressed_key);
      reflexivity.
Defined.

(** C2, as stated, fails: with 17 keys, required = 0 fails with "must
    require at least one key" and required = 18 with "not enough keys
    supplied", neither with "Number of keys ... > 16". *)
Lemma CreateMultisigRedeemscript_earlier_checks_win :
  16 < length (repeat compressed_key 17)
  /\ CreateMultisigRedeemscript 0 (repeat compressed_key 17)
     = Outcome.fail threshold_below_one
  /\ CreateMultisigRedeemscript 0 (repeat compressed_key 17)
     <> Outcome.fail more_than_16_keys
  /\ CreateMultisigRedeemscript 18 (repeat compressed_key 17)
     = Outcome.fail (not_enough_keys 17 18)
  /\ CreateMultisigRedeemscript 18 (repeat compressed_key 17)
     <> Outcome.fail more_than_16_keys.
Proof.
  repeat split; by_running.
Qed.

Lemma CreateMultisigRedeemscript_too_many_keys_witness :
  CreateMultisigRedeemscript 2 (repeat compressed_key 17)
  = Outcome.fail more_than_16_keys
  /\ CreateMultisigRedeemscript (-1) (repeat compressed_key 17)
     = Outcome.fail threshold_below_one
  /\ CreateMultisigRedeemscript 3 (repeat compressed_key 2)
     = Outcome.fail (not_enough_keys 2 3).
Proof.
  split; [|split].
  - apply (proj1 (CreateMultisigRedeemscript_too_many_keys
                    2 (repeat compressed_key 17))); by_running.
  - apply (proj1 (proj2 (CreateMultisigRedeemscript_too_many_keys
                           (-1) (repeat compressed_key 17)))); by_running.
  - apply (proj2 (proj2 (CreateMultisigRedeemscript_too_many_keys
                           3 (repeat compressed_key 2)))); by_running.
Defined.

Lemma CreateMultisigRedeemscript_size_limit_witness :
  (length (GetScriptForMultisig 2 (repeat compressed_key 3)) <= 520
   /\ CreateMultisigRedeemscript 2 (repeat compressed_key 3)
      = Outcome.ret (GetScriptForMultisig 2 (repeat compressed_key 3)))
  /\ CreateMultisigRedeemscript 2 (repeat uncompressed_key 8)
     = Outcome.fail
         (JSONRPCError RPC_INVALID_PARAMETER
            "redeemScript exceeds size limit: 531 > 520").
Proof.
  split.
  - destruct (proj1 (CreateMultisigRedeemscript_size_limit
                       2 (repeat compressed_key 3))
                (GetScriptForMultisig 2 (repeat compressed_key 3)))
      as [Hlen _]; [reflexivity|].
    split; [exact Hlen | reflexivity].
  - refine (proj1 (proj2 (CreateMultisigRedeemscript_size_limit
                            2 (repeat uncompressed_key 8)) _ _ _ _));
      by_running.
Defined.

End KeyRuns.

(** ** Describing a destination *)

Section DescribeClaims.
Import Keys.

(** C9.  [DescribeAddress] returns an object for each of the three
    alternatives of a destination and never fails: the empty object for
    [CNoDestination], an object with the one member "isscript" : false for
    a key id, and an object with the one member "isscript" : true for a
    script id.  ("isscript" is the key under which the code stores the
    field.) *)
Theorem DescribeAddress_total :
  DescribeAddress CNoDestination = VOBJ []
  /\ (forall keyID,
         DescribeAddress (KeyDest keyID) = VOBJ [("isscript", VBOOL false)])
  /\ (forall scriptID,
         DescribeAddress (ScriptDest scriptID)
         = VOBJ [("isscript", VBOOL true)])
  /\ (forall dest, exists members,
         DescribeAddress dest = VOBJ members /\ length members <= 1).
Proof.
  repeat split.
  intros [|keyID|scriptID]; simpl; eexists; split;
    try reflexivity; simpl; lia.
Qed.

End DescribeClaims.

(** * Further properties *)

(** ** The loops of the renderer *)

Section Loops.
Import Help HelpShape.

Lemma ToString_ARR name inner optional :
  ToString (mkRPCArg name ARR inner optional)
  = Outcome.bind (each inner "")
      (fun res => Outcome.ret ("[" ++ res ++ "...]")).
Proof. reflexivity. Qed.

Lemma ToString_OBJ name inner optional :
  ToString (mkRPCArg name OBJ inner optional)
  = Outcome.bind (joined inner "")
      (fun res => Outcome.ret ("{" ++ res ++ "}")).
Proof. reflexivity. Qed.

Lemma ToString_OBJ_USER_KEYS name inner optional :
  ToString (mkRPCArg name OBJ_USER_KEYS inner optional)
  = Outcome.bind (joined inner "")
      (fun res => Outcome.ret ("{" ++ res ++ ",...}")).
Proof. reflexivity. Qed.

Lemma ToStringObj_ARR name inner optional :
  ToStringObj (mkRPCArg name ARR inner optional)
  = Outcome.bind (each inner ((quote ++ name ++ quote ++ ":") ++ "["))
      (fun res => Outcome.ret (res ++ "...]")).
Proof. reflexivity. Qed.

Lemma append_empty_r (s : string) : s ++ "" = s.
Proof. induction s as [|c s IH]; simpl; [reflexivity | now rewrite IH]. Qed.

(** The loops only append to what they are given. *)
Lemma each_acc l : forall res,
  each l res
  = Outcome.bind (each l "") (fun s => Outcome.ret (res ++ s)).
Proof.
  induction l as [|a l IH]; intros res; simpl.
  - now rewrite append_empty_r.
  - destruct (ToString a) as [e|s]; simpl; [reflexivity|].
    rewrite (IH (res ++ (s ++ ","))), (IH (s ++ ",")).
    destruct (each l "") as [e|r]; simpl; [reflexivity|].
    now rewrite append_assoc.
Qed.

Lemma each_tokens l : forall ts res,
  Forall2 (fun a t => ToString a = Outcome.ret t) l ts ->
  each l res
  = Outcome.ret (res ++ String.concat "" (map (fun t => t ++ ",") ts)).
Proof.
  induction l as [|a l IH]; intros ts res H; inversion H; subst; simpl.
  - now rewrite append_empty_r.
  - match goal with Ha : ToString a = _ |- _ => rewrite Ha end. simpl.
    rewrite (IH _ _ ltac:(eassumption)).
    unfold Outcome.ret. f_equal.
    match goal with
    | |- context [map _ ?l'] => destruct l' as [|t' l'']
    end; simpl.
    + now rewrite !append_assoc, ?append_empty_r.
    + now rewrite !append_assoc.
Qed.

Lemma joined_tokens l : forall ts res,
  Forall2 (fun a t => ToStringObj a = Outcome.ret t) l ts ->
  joined l res = Outcome.ret (res ++ String.concat "," ts).
Proof.
  induction l as [|a l IH]; intros ts res H; inversion H; subst; simpl.
  - now rewrite append_empty_r.
  - match goal with Ha : ToStringObj a = _ |- _ => rewrite Ha end. simpl.
    match goal with
    | Hr : Forall2 _ l ?ts' |- _ =>
        rewrite (IH _ _ Hr); inversion Hr; subst; simpl
    end.
    + now rewrite append_empty_r.
    + unfold Outcome.ret. f_equal. now rewrite !append_assoc.
Qed.

End Loops.

Section LoopOutcomes.
Import Help HelpShape.

Lemma each_returns l : forall res,
  Outcome.returns (each l res)
  <-> Forall (fun a => Outcome.returns (ToString a)) l.
Proof.
  induction l as [|a l IH]; intros res; simpl.
  - split; [constructor | intros _; eexists; reflexivity].
  - destruct (ToString a) as [e|s] eqn:Ha; simpl.
    + split.
      * intros [x Hx]; discriminate.
      * intros H; inversion H; subst.
        match goal with Hr : Outcome.returns (ToString a) |- _ =>
          destruct Hr as [x Hx]; congruence end.
    + rewrite IH. split.
      * intros H; constructor; [eexists; exact Ha | assumption].
      * intros H; inversion H; assumption.
Qed.

Lemma joined_returns l : forall res,
  Outcome.returns (joined l res)
  <-> Forall (fun a => Outcome.returns (ToStringObj a)) l.
Proof.
  induction l as [|a l IH]; intros res; simpl.
  - split; [constructor | intros _; eexists; reflexivity].
  - destruct (ToStringObj a) as [e|s] eqn:Ha; simpl.
    + split.
      * intros [x Hx]; discriminate.
      * intros H; inversion H; subst.
        match goal with Hr : Outcome.returns (ToStringObj a) |- _ =>
          destruct Hr as [x Hx]; congruence end.
    + rewrite IH. split.
      * intros H; constructor; [eexists; exact Ha | assumption].
      * intros H; inversion H; assumption.
Qed.

Lemma each_fail l : forall res e,
  each l res = inl e -> exists a, In a l /\ ToString a = inl e.
Proof.
  induction l as [|a l IH]; intros res e; simpl.
  - discriminate.
  - destruct (ToString a) as [e'|s] eqn:Ha; simpl.
    + intros H; inversion H; subst. exists a. split; [now left | exact Ha].
    + intros H. destruct (IH _ _ H) as [b [Hin Hb]].
      exists b. split; [now right | exact Hb].
Qed.

Lemma joined_fail l : forall res e,
  joined l res = inl e -> exists a, In a l /\ ToStringObj a = inl e.
Proof.
  induction l as [|a l IH]; intros res e; simpl.
  - discriminate.
  - destruct (ToStringObj a) as [e'|s] eqn:Ha; simpl.
    + intros H; inversion H; subst. exists a. split; [now left | exact Ha].
    + intros H. destruct (IH _ _ H) as [b [Hin Hb]].
      exists b. split; [now right | exact Hb].
Qed.

Lemma each_map_ext (f : RPCArg -> RPCArg) l : forall res,
  Forall (fun a => ToString (f a) = ToString a) l ->
  each (map f l) res = each l res.
Proof.
  induction l as [|a l IH]; intros res H; simpl; [reflexivity|].
  inversion H; subst.
  match goal with Ha : ToString (f a) = _ |- _ => rewrite Ha end.
  destruct (ToString a); simpl; [reflexivity | now apply IH].
Qed.

Lemma joined_map_ext (f : RPCArg -> RPCArg) l : forall res,
  Forall (fun a => ToStringObj (f a) = ToStringObj a) l ->
  joined (map f l) res = joined l res.
Proof.
  induction l as [|a l IH]; intros res H; simpl; [reflexivity|].
  inversion H; subst.
  match goal with Ha : ToStringObj (f a) = _ |- _ => rewrite Ha end.
  destruct (ToStringObj a); simpl; [reflexivity|].
  destruct l; simpl; [reflexivity|].
  match goal with Hr : Forall _ (_ :: _) |- _ => apply (IH _ Hr) end.
Qed.

Lemma returns_bind_ret {E A B} (c : Outcome.t E A) (f : A -> B) :
  Outcome.returns (Outcome.bind c (fun x => Outcome.ret (f x)))
  <-> Outcome.returns c.
Proof.
  destruct c as [e|a]; simpl; split; intros [x Hx];
    try discriminate; eexists; reflexivity.
Qed.

End LoopOutcomes.

(** ** Tokens and structural forms of nested arguments *)

Section TokenProperties.
Import Help HelpShape.

(** Rendering a token or a structural form stops at no assertion but the
    [assert(false)] of [RPCArg::ToStringObj] on an object nested in an
    object; [assert(!is_optional)] and the [assert(false)] after the
    switches are never the reason. *)
Lemma token_abort_kind :
  forall a e,
    (ToString a = Outcome.fail e -> e = assert_obj_unused)
    /\ (ToStringObj a = Outcome.fail e -> e = assert_obj_unused).
Proof.
  intros a e. revert a.
  apply RPCArg_nested_ind. intros name type inner optional IH.
  assert (Heach : forall res, each inner res = inl e -> e = assert_obj_unused).
  { intros res H. destruct (each_fail _ _ _ H) as [b [Hin Hb]].
    rewrite Forall_forall in IH. exact (proj1 (IH b Hin) Hb). }
  assert (Hjoined : forall res,
             joined inner res = inl e -> e = assert_obj_unused).
  { intros res H. destruct (joined_fail _ _ _ H) as [b [Hin Hb]].
    rewrite Forall_forall in IH. exact (proj2 (IH b Hin) Hb). }
  split.
  - destruct type;
      rewrite ?ToString_ARR, ?ToString_OBJ, ?ToString_OBJ_USER_KEYS;
      try discriminate.
    + destruct (joined inner "") eqn:H; simpl; [|discriminate].
      intros H'; inversion H'; subst. exact (Hjoined _ H).
    + destruct (each inner "") eqn:H; simpl; [|discriminate].
      intros H'; inversion H'; subst. exact (Heach _ H).
    + destruct (joined inner "") eqn:H; simpl; [|discriminate].
      intros H'; inversion H'; subst. exact (Hjoined _ H).
  - destruct type; rewrite ?ToStringObj_ARR; try discriminate;
      try (intros H; inversion H; reflexivity).
    destruct (each inner _) eqn:H; simpl; [|discriminate].
    intros H'; inversion H'; subst. exact (Heach _ H).
Qed.

Lemma forallb_Forall {A} (f : A -> bool) (P : A -> Prop) (l : list A) :
  Forall (fun a => P a <-> f a = true) l ->
  (Forall P l <-> forallb f l = true).
Proof.
  induction 1 as [|a l Ha _ IH]; simpl.
  - split; [reflexivity | constructor].
  - rewrite andb_true_iff, <- IH, <- Ha. split.
    + intros H; inversion H; split; assumption.
    + intros [H1 H2]; constructor; assumption.
Qed.

Lemma token_returns_iff :
  forall a,
    (Outcome.returns (ToString a) <-> renderable a = true)
    /\ (Outcome.returns (ToStringObj a)
        <-> is_object (m_type a) = false /\ renderable a = true).
Proof.
  apply RPCArg_nested_ind. intros name type inner optional IH.
  assert (Htok : Forall (fun a => Outcome.returns (ToString a)) inner
                 <-> forallb renderable inner = true).
  { apply forallb_Forall. revert IH. apply Forall_impl.
    intros a H. exact (proj1 H). }
  assert (Hobj : Forall (fun a => Outcome.returns (ToStringObj a)) inner
                 <-> forallb (fun c => negb (is_object (m_type c))
                                       && renderable c) inner = true).
  { apply forallb_Forall. revert IH. apply Forall_impl.
    intros a H. rewrite (proj2 H), andb_true_iff, negb_true_iff.
    reflexivity. }
  assert (Hyes : forall (s : string),
             Outcome.returns (Outcome.ret s : rendered)).
  { intros s; eexists; reflexivity. }
  split.
  - destruct type;
      rewrite ?ToString_ARR, ?ToString_OBJ, ?ToString_OBJ_USER_KEYS,
        ?returns_bind_ret, ?joined_returns, ?each_returns;
      simpl renderable; try assumption;
      (split; [reflexivity | intros _; apply Hyes]).
  - destruct type; rewrite ?ToStringObj_ARR, ?returns_bind_ret,
      ?each_returns; simpl m_type; simpl is_object; simpl renderable;
      try (split; [intros _; split; reflexivity | intros _; apply Hyes]);
      try (split; [intros [x Hx]; discriminate | intros [H _]; discriminate]).
    rewrite Htok. split; [intros H; split; [reflexivity | exact H] | tauto].
Qed.

(** A token renders exactly when no object sits directly inside an object
    anywhere in the argument; a structural form renders exactly when, in
    addition, the argument is not itself an object. *)
Theorem ToString_returns_iff_renderable :
  forall a,
    (Outcome.returns (ToString a) <-> renderable a = true)
    /\ (Outcome.returns (ToStringObj a)
        <-> is_object (m_type a) = false /\ renderable a = true).
Proof. exact token_returns_iff. Qed.

Lemma ToString_returns_iff_renderable_witness :
  Outcome.returns
    (ToString
       (mkRPCArg "o" OBJ
          [mkRPCArg "k" ARR [mkRPCArg "x" OBJ [] false] false] false))
  /\ renderable (mkRPCArg "o" OBJ [mkRPCArg "k" OBJ [] false] true) = false.
Proof.
  split.
  - apply (proj1 (ToString_returns_iff_renderable
                    (mkRPCArg "o" OBJ
                       [mkRPCArg "k" ARR [mkRPCArg "x" OBJ [] false] false]
                       false))).
    reflexivity.
  - apply not_true_is_false. intros H.
    apply (proj1 (ToString_returns_iff_renderable
                    (mkRPCArg "o" OBJ [mkRPCArg "k" OBJ [] false] true)))
      in H.
    destruct H as [x Hx]. discriminate Hx.
Defined.

(** The token of an array is "[", the token of every child followed by a
    comma, in order, and "...]"; with no child it is "[...]".  Its
    structural form is the same text after the quoted name and a colon. *)
Theorem ToString_array_shape :
  forall name inner optional tokens,
    Forall2 (fun a t => ToString a = Outcome.ret t) inner tokens ->
    ToString (mkRPCArg name ARR inner optional)
    = Outcome.ret
        ("[" ++ String.concat "" (map (fun t => t ++ ",") tokens) ++ "...]")
    /\ ToStringObj (mkRPCArg name ARR inner optional)
       = Outcome.ret
           (quote ++ name ++ quote ++ ":" ++ "["
              ++ String.concat "" (map (fun t => t ++ ",") tokens)
              ++ "...]").
Proof.
  intros name inner optional tokens H.
  rewrite ToString_ARR, ToStringObj_ARR.
  rewrite !(each_tokens _ _ _ H). simpl. unfold Outcome.ret.
  split; f_equal. now rewrite !append_assoc.
Qed.

Lemma ToString_array_shape_witness :
  ToString
    (mkRPCArg "keys" ARR
       [mkRPCArg "key" STR [] false; mkRPCArg "n" NUM [] false] false)
  = Outcome.ret ("[" ++ quote ++ "key" ++ quote ++ ",n,...]")
  /\ ToString (mkRPCArg "keys" ARR [] false) = Outcome.ret "[...]".
Proof.
  split.
  - refine (proj1 (ToString_array_shape "keys"
                     [mkRPCArg "key" STR [] false; mkRPCArg "n" NUM [] false]
                     false [quote ++ "key" ++ quote; "n"] _)).
    repeat constructor.
  - refine (proj1 (ToString_array_shape "keys" [] false [] _)).
    constructor.
Defined.

(** The token of an object is "{", the structural forms of its children
    separated by single commas, and "}"; for an object with free-form keys
    ",...}" closes it, also when there is no child, which gives "{,...}". *)
Theorem ToString_object_shape :
  forall name inner optional forms,
    Forall2 (fun a t => ToStringObj a = Outcome.ret t) inner forms ->
    ToString (mkRPCArg name OBJ inner optional)
    = Outcome.ret ("{" ++ String.concat "," forms ++ "}")
    /\ ToString (mkRPCArg name OBJ_USER_KEYS inner optional)
       = Outcome.ret ("{" ++ String.concat "," forms ++ ",...}").
Proof.
  intros name inner optional forms H.
  rewrite ToString_OBJ, ToString_OBJ_USER_KEYS.
  rewrite !(joined_tokens _ _ _ H). simpl. split; reflexivity.
Qed.

Lemma ToString_object_shape_witness :
  ToString
    (mkRPCArg "options" OBJ
       [mkRPCArg "fee" AMOUNT [] false; mkRPCArg "safe" BOOL [] true] false)
  = Outcome.ret
      ("{" ++ quote ++ "fee" ++ quote ++ ":amount,"
         ++ quote ++ "safe" ++ quote ++ ":bool}")
  /\ ToString (mkRPCArg "options" OBJ_USER_KEYS [] false)
     = Outcome.ret "{,...}".
Proof.
  split.
  - refine (proj1 (ToString_object_shape "options"
                     [mkRPCArg "fee" AMOUNT [] false;
                      mkRPCArg "safe" BOOL [] true]
                     false
                     [quote ++ "fee" ++ quote ++ ":amount";
                      quote ++ "safe" ++ quote ++ ":bool"] _)).
    repeat constructor.
  - refine (proj2 (ToString_object_shape "options" [] false [] _)).
    constructor.
Defined.

(** For an array the structural form is the token with the quoted name and
    a colon in front, and it aborts exactly as the token does. *)
Theorem ToStringObj_array_is_prefixed_token :
  forall name inner optional,
    ToStringObj (mkRPCArg name ARR inner optional)
    = Outcome.bind (ToString (mkRPCArg name ARR inner optional))
        (fun token => Outcome.ret (quote ++ name ++ quote ++ ":" ++ token)).
Proof.
  intros name inner optional.
  rewrite ToString_ARR, ToStringObj_ARR, each_acc.
  destruct (each inner "") as [e|s]; simpl; [reflexivity|].
  unfold Outcome.ret. f_equal. now rewrite !append_assoc.
Qed.

(** The optional flags, of the argument and of everything nested in it,
    never show in its token or its structural form. *)
Theorem ToString_ignores_optional_flags :
  forall flag a,
    ToString (with_optional flag a) = ToString a
    /\ ToStringObj (with_optional flag a) = ToStringObj a.
Proof.
  intros flag. apply RPCArg_nested_ind. intros name type inner optional IH.
  assert (Htok : Forall (fun a => ToString (with_optional flag a)
                                  = ToString a) inner).
  { revert IH. apply Forall_impl. intros a H. exact (proj1 H). }
  assert (Hobj : Forall (fun a => ToStringObj (with_optional flag a)
                                  = ToStringObj a) inner).
  { revert IH. apply Forall_impl. intros a H. exact (proj2 H). }
  simpl with_optional. split.
  - destruct type;
      rewrite ?ToString_ARR, ?ToString_OBJ, ?ToString_OBJ_USER_KEYS,
        ?(each_map_ext _ _ _ Htok), ?(joined_map_ext _ _ _ Hobj);
      reflexivity.
  - destruct type;
      rewrite ?ToStringObj_ARR, ?(each_map_ext _ _ _ Htok); reflexivity.
Qed.

End TokenProperties.

(** ** The whole signature line *)

Section SignatureShape.
Import Help HelpShape.

Lemma concat_empty_cons (x : string) (l : list string) :
  String.concat "" (x :: l) = x ++ String.concat "" l.
Proof. destruct l; simpl; [now rewrite append_empty_r | reflexivity]. Qed.

Lemma concat_sep_cons (sep x : string) (l : list string) :
  String.concat sep (x :: l)
  = x ++ String.concat "" (map (fun t => sep ++ t) l).
Proof.
  revert x; induction l as [|y l IH]; intros x.
  - simpl. now rewrite append_empty_r.
  - change (String.concat sep (x :: y :: l))
      with (x ++ sep ++ String.concat sep (y :: l)).
    rewrite IH. simpl map. rewrite concat_empty_cons.
    now rewrite !append_assoc.
Qed.

(** A run of arguments that do not change the flag appends a space and the
    token for each. *)
Lemma scan_args_same_flag flag l : forall ts st,
  is_optional st = flag ->
  Forall (fun a => m_optional a = flag) l ->
  Forall2 (fun a t => ToString a = Outcome.ret t) l ts ->
  scan_args st l
  = Outcome.ret
      (mkScan (ret st ++ String.concat "" (map (fun t => " " ++ t) ts)) flag).
Proof.
  destruct flag;
    (induction l as [|a l IH]; intros ts [r f] Hf Hl Ht; simpl in Hf; subst f;
     inversion Ht as [|a' t l' ts' Ha Ht']; subst;
     inversion Hl as [|a'' l'' Ho Hl']; subst;
     [ simpl; now rewrite append_empty_r
     | simpl map; rewrite concat_empty_cons;
       cbn [scan_args]; unfold scan_arg; rewrite Ha, Ho;
       cbn [Outcome.bind Outcome.ret Outcome.fail is_optional ret];
       (erewrite IH; [|reflexivity|eassumption|eassumption]);
       cbn [ret]; unfold Outcome.ret; do 2 f_equal;
       now rewrite !append_assoc ]).
Qed.

(** The first optional argument opens the group. *)
Lemma scan_arg_opens_group st a t :
  is_optional st = false -> m_optional a = true ->
  ToString a = Outcome.ret t ->
  scan_arg st a = Outcome.ret (mkScan (ret st ++ " ( " ++ t) true).
Proof.
  intros Hf Ha Ht. unfold scan_arg. rewrite Ha, Hf, Ht. simpl.
  unfold Outcome.ret. do 2 f_equal. now rewrite !append_assoc.
Qed.

Lemma signature_of_runs :
  forall name reqs opts rtokens otokens,
    Forall (fun a => m_optional a = false) reqs ->
    Forall (fun a => m_optional a = true) opts ->
    Forall2 (fun a t => ToString a = Outcome.ret t) reqs rtokens ->
    Forall2 (fun a t => ToString a = Outcome.ret t) opts otokens ->
    RPCHelpMan_ToString (mkRPCHelpMan name (reqs ++ opts))
    = Outcome.ret (signature_text name rtokens otokens).
Proof.
  intros name reqs opts rtokens otokens Hr Ho Hrt Hot.
  unfold RPCHelpMan_ToString, signature_text; simpl hm_name; simpl hm_args.
  rewrite scan_args_app.
  rewrite (scan_args_same_flag false reqs rtokens (mkScan ("" ++ name) false)
             eq_refl Hr Hrt).
  cbn [Outcome.bind Outcome.ret ret].
  inversion Hot as [|b t opts' ots' Hb Hot']; subst.
  - cbn [scan_args Outcome.bind Outcome.ret ret is_optional].
    unfold Outcome.ret. f_equal. now rewrite !append_assoc.
  - inversion Ho as [|b' l' Hbo Ho']; subst.
    cbn [scan_args].
    rewrite scan_arg_opens_group with (t := t);
      [|reflexivity|exact Hbo|exact Hb].
    cbn [Outcome.bind Outcome.ret ret].
    rewrite scan_args_same_flag with (flag := true) (ts := ots');
      [|reflexivity|exact Ho'|exact Hot'].
    cbn [Outcome.bind Outcome.ret ret is_optional].
    unfold Outcome.ret. f_equal.
    rewrite concat_sep_cons. now rewrite !append_assoc.
Qed.

(** For required arguments followed by optional ones, all with tokens that
    render, the signature is the name, each required token after a space,
    then, if there is an optional argument, " ( ", the optional tokens
    separated by single spaces and " )", and one line break. *)
Theorem signature_shape :
  forall name reqs opts rtokens otokens,
    Forall (fun a => m_optional a = false) reqs ->
    Forall (fun a => m_optional a = true) opts ->
    Forall2 (fun a t => ToString a = Outcome.ret t) reqs rtokens ->
    Forall2 (fun a t => ToString a = Outcome.ret t) opts otokens ->
    RPCHelpMan_ToString (mkRPCHelpMan name (reqs ++ opts))
    = Outcome.ret (signature_text name rtokens otokens).
Proof. exact signature_of_runs. Qed.

Lemma signature_shape_witness :
  RPCHelpMan_ToString
    (mkRPCHelpMan "createmultisig"
       [mkRPCArg "nrequired" NUM [] false;
        mkRPCArg "keys" ARR [mkRPCArg "key" STR_HEX [] false] false])
  = Outcome.ret
      ("createmultisig nrequired [" ++ quote ++ "key" ++ quote ++ ",...]"
         ++ newline)
  /\ RPCHelpMan_ToString
       (mkRPCHelpMan "getbalance"
          [mkRPCArg "dummy" STR [] true; mkRPCArg "minconf" NUM [] true])
     = Outcome.ret
         ("getbalance ( " ++ quote ++ "dummy" ++ quote ++ " minconf )"
            ++ newline).
Proof.
  split.
  - refine (signature_shape "createmultisig"
              [mkRPCArg "nrequired" NUM [] false;
               mkRPCArg "keys" ARR [mkRPCArg "key" STR_HEX [] false] false]
              []
              ["nrequired"; "[" ++ quote ++ "key" ++ quote ++ ",...]"] []
              _ _ _ _); repeat constructor.
  - refine (signature_shape "getbalance" []
              [mkRPCArg "dummy" STR [] true; mkRPCArg "minconf" NUM [] true]
              [] [quote ++ "dummy" ++ quote; "minconf"]
              _ _ _ _); repeat constructor.
Defined.

End SignatureShape.

Section SignatureOutcomes.
Import Help HelpShape.

Lemma Forall_returns_tokens (l : list RPCArg) :
  Forall (fun a => Outcome.returns (ToString a)) l ->
  exists ts, Forall2 (fun a t => ToString a = Outcome.ret t) l ts.
Proof.
  induction 1 as [|a l [t Ht] _ [ts Hts]].
  - exists []. constructor.
  - exists (t :: ts). constructor; assumption.
Qed.

(** What one successful iteration says about the argument and the flag. *)
Lemma scan_arg_success st a st' :
  scan_arg st a = inr st' ->
  Outcome.returns (ToString a)
  /\ is_optional st' = (m_optional a || is_optional st)%bool
  /\ (m_optional a = false -> is_optional st = false).
Proof.
  intros H. split; [|split].
  - unfold scan_arg in H.
    destruct (ToString a) as [e|s]; [|eexists; reflexivity].
    destruct (m_optional a), (is_optional st); discriminate H.
  - exact (scan_arg_keeps_flag _ _ _ H).
  - intros Ha. unfold scan_arg in H. rewrite Ha in H.
    destruct (is_optional st); [discriminate H | reflexivity].
Qed.

Lemma required_then_optional_cons_required a l :
  m_optional a = false ->
  required_then_optional l -> required_then_optional (a :: l).
Proof.
  intros Ha [reqs [opts [-> [Hr Ho]]]].
  exists (a :: reqs), opts.
  split; [reflexivity | split; [constructor; assumption | assumption]].
Qed.

Lemma required_then_optional_all_optional l :
  Forall (fun a => m_optional a = true) l -> required_then_optional l.
Proof.
  intros H. exists [], l. split; [reflexivity | split; [constructor | exact H]].
Qed.

Lemma scan_args_success l : forall st st',
  scan_args st l = inr st' ->
  Forall (fun a => Outcome.returns (ToString a)) l
  /\ (if is_optional st
      then Forall (fun a => m_optional a = true) l
      else required_then_optional l).
Proof.
  induction l as [|a l IH]; intros st st' H; simpl in H.
  - split; [constructor|].
    destruct (is_optional st);
      [constructor | apply required_then_optional_all_optional; constructor].
  - destruct (scan_arg st a) as [e|st1] eqn:Ha; simpl in H; [discriminate|].
    destruct (scan_arg_success _ _ _ Ha) as [Htok [Hflag Hreq]].
    destruct (IH _ _ H) as [Htoks Hrest].
    split; [constructor; assumption|].
    rewrite Hflag in Hrest.
    destruct (m_optional a) eqn:Hopt; simpl in Hrest.
    + destruct (is_optional st).
      * constructor; assumption.
      * apply required_then_optional_all_optional.
        constructor; assumption.
    + rewrite (Hreq eq_refl) in *.
      apply required_then_optional_cons_required; assumption.
Qed.

(** A list with an optional argument in front of a required one is not
    "required first". *)
Lemma optional_then_required_not_ordered a l r :
  m_optional a = true -> In r l -> m_optional r = false ->
  ~ required_then_optional (a :: l).
Proof.
  intros Ha Hin Hr [reqs [opts [E [Hreqs Hopts]]]].
  destruct reqs as [|q reqs]; simpl in E.
  - subst opts. inversion Hopts as [|? ? _ Hl]; subst.
    rewrite Forall_forall in Hl. specialize (Hl r Hin). congruence.
  - inversion E; subst. inversion Hreqs; subst. congruence.
Qed.

Lemma required_cons_not_ordered a l :
  m_optional a = false ->
  ~ required_then_optional l -> ~ required_then_optional (a :: l).
Proof.
  intros Ha Hl [reqs [opts [E [Hreqs Hopts]]]].
  destruct reqs as [|q reqs]; simpl in E.
  - subst opts. inversion Hopts; subst. congruence.
  - inversion E; subst. inversion Hreqs; subst.
    apply Hl. exists reqs, opts. auto.
Qed.

Lemma scan_args_failure l : forall st e,
  scan_args st l = inl e ->
  (e = assert_not_is_optional
   /\ (if is_optional st
       then exists r, In r l /\ m_optional r = false
       else ~ required_then_optional l))
  \/ (exists a, In a l /\ ToString a = inl e).
Proof.
  induction l as [|a l IH]; intros st e H; simpl in H; [discriminate|].
  destruct (scan_arg st a) as [e1|st1] eqn:Ha; simpl in H.
  - inversion H; subst e1. clear H. unfold scan_arg in Ha.
    destruct (ToString a) as [e2|s] eqn:Htok.
    + destruct (m_optional a) eqn:Hopt.
      * simpl in Ha. inversion Ha; subst.
        right. exists a. split; [now left | exact Htok].
      * destruct (is_optional st) eqn:Hf; simpl in Ha; inversion Ha; subst.
        -- left. split; [reflexivity|].
           exists a. split; [now left | exact Hopt].
        -- right. exists a. split; [now left | exact Htok].
    + destruct (m_optional a) eqn:Hopt;
        [simpl in Ha; discriminate Ha|].
      destruct (is_optional st) eqn:Hf; simpl in Ha; [|discriminate Ha].
      inversion Ha; subst. left. split; [reflexivity|].
      exists a. split; [now left | exact Hopt].
  - destruct (scan_arg_success _ _ _ Ha) as [_ [Hflag Hreq]].
    destruct (IH _ _ H) as [[He Hrest] | [b [Hin Hb]]].
    + left. split; [exact He|].
      rewrite Hflag in Hrest.
      destruct (m_optional a) eqn:Hopt; simpl in Hrest.
      * destruct Hrest as [r [Hin Hr]].
        destruct (is_optional st).
        -- exists r. split; [now right | exact Hr].
        -- exact (optional_then_required_not_ordered _ _ _ Hopt Hin Hr).
      * rewrite (Hreq eq_refl) in *.
        apply required_cons_not_ordered; assumption.
    + right. exists b. split; [now right | exact Hb].
Qed.

(** Every signature that is returned has the shape of [signature_text]:
    the arguments are a run of required ones followed by a run of optional
    ones, every token rendered, and the text is built from these tokens.
    In particular it starts with the command name and ends with one line
    break. *)
Theorem signature_returned_has_shape :
  forall h text,
    RPCHelpMan_ToString h = Outcome.ret text ->
    exists reqs opts rtokens otokens,
      hm_args h = (reqs ++ opts)%list
      /\ Forall (fun a => m_optional a = false) reqs
      /\ Forall (fun a => m_optional a = true) opts
      /\ Forall2 (fun a t => ToString a = Outcome.ret t) reqs rtokens
      /\ Forall2 (fun a t => ToString a = Outcome.ret t) opts otokens
      /\ text = signature_text (hm_name h) rtokens otokens.
Proof.
  intros [name args] text H.
  assert (Hscan : exists st, scan_args (mkScan ("" ++ name) false) args = inr st).
  { unfold RPCHelpMan_ToString in H; simpl in H.
    destruct (scan_args _ args) as [e|st]; [discriminate H|].
    eexists; reflexivity. }
  destruct Hscan as [st Hst].
  destruct (scan_args_success _ _ _ Hst) as [Htoks Hord]; simpl in Hord.
  destruct Hord as [reqs [opts [E [Hr Ho]]]]. subst args.
  apply Forall_app in Htoks. destruct Htoks as [Htr Hto].
  destruct (Forall_returns_tokens _ Htr) as [rts Hrts].
  destruct (Forall_returns_tokens _ Hto) as [ots Hots].
  exists reqs, opts, rts, ots. simpl hm_args; simpl hm_name.
  repeat (split; [first [reflexivity | assumption]|]).
  pose proof (signature_of_runs name reqs opts rts ots Hr Ho Hrts Hots) as Hs.
  rewrite H in Hs. inversion Hs. reflexivity.
Qed.

Lemma signature_returned_has_shape_witness :
  exists reqs opts rtokens otokens,
    [mkRPCArg "txid" STR_HEX [] false; mkRPCArg "verbose" BOOL [] true]
    = (reqs ++ opts)%list
    /\ Forall (fun a => m_optional a = false) reqs
    /\ Forall (fun a => m_optional a = true) opts
    /\ Forall2 (fun a t => ToString a = Outcome.ret t) reqs rtokens
    /\ Forall2 (fun a t => ToString a = Outcome.ret t) opts otokens
    /\ "gettx " ++ quote ++ "txid" ++ quote ++ " ( verbose )" ++ newline
       = signature_text "gettx" rtokens otokens.
Proof.
  apply (signature_returned_has_shape
           (mkRPCHelpMan "gettx"
              [mkRPCArg "txid" STR_HEX [] false;
               mkRPCArg "verbose" BOOL [] true])).
  reflexivity.
Defined.

(** A signature is returned exactly when the required arguments all come
    before the optional ones and no argument has an object directly inside
    an object. *)
Theorem signature_returns_iff :
  forall h,
    Outcome.returns (RPCHelpMan_ToString h)
    <-> required_then_optional (hm_args h)
        /\ forallb renderable (hm_args h) = true.
Proof.
  intros [name args]; simpl hm_args. split.
  - intros [text H].
    assert (Hscan : exists st,
               scan_args (mkScan ("" ++ name) false) args = inr st).
    { unfold RPCHelpMan_ToString in H; simpl in H.
      destruct (scan_args _ args) as [e|st]; [discriminate H|].
      eexists; reflexivity. }
    destruct Hscan as [st Hst].
    destruct (scan_args_success _ _ _ Hst) as [Htoks Hord]; simpl in Hord.
    split; [exact Hord|].
    apply (forallb_Forall renderable
             (fun a => Outcome.returns (ToString a))); [|exact Htoks].
    apply Forall_forall. intros a _. exact (proj1 (token_returns_iff a)).
  - intros [[reqs [opts [E [Hr Ho]]]] Hren]. subst args.
    assert (Htoks : Forall (fun a => Outcome.returns (ToString a))
                      (reqs ++ opts)).
    { apply (forallb_Forall renderable
               (fun a => Outcome.returns (ToString a))); [|exact Hren].
      apply Forall_forall. intros a _. exact (proj1 (token_returns_iff a)). }
    apply Forall_app in Htoks. destruct Htoks as [Htr Hto].
    destruct (Forall_returns_tokens _ Htr) as [rts Hrts].
    destruct (Forall_returns_tokens _ Hto) as [ots Hots].
    eexists. exact (signature_of_runs name reqs opts rts ots Hr Ho Hrts Hots).
Qed.

Lemma signature_returns_iff_witness :
  Outcome.returns
    (RPCHelpMan_ToString
       (mkRPCHelpMan "send"
          [mkRPCArg "to" STR [] false;
           mkRPCArg "options" OBJ [mkRPCArg "fee" AMOUNT [] false] true])).
Proof.
  apply (proj2 (signature_returns_iff
                  (mkRPCHelpMan "send"
                     [mkRPCArg "to" STR [] false;
                      mkRPCArg "options" OBJ
                        [mkRPCArg "fee" AMOUNT [] false] true]))).
  split; [|reflexivity].
  exists [mkRPCArg "to" STR [] false],
    [mkRPCArg "options" OBJ [mkRPCArg "fee" AMOUNT [] false] true].
  split; [reflexivity | split; repeat constructor].
Defined.

(** When no signature is returned, the reason is one of two: the
    [assert(!is_optional)], and then the arguments are not "required
    first"; or the [assert(false)] of [RPCArg::ToStringObj], and then some
    argument has an object directly inside an object. *)
Theorem signature_abort_reasons :
  forall h e,
    RPCHelpMan_ToString h = Outcome.fail e ->
    (e = assert_not_is_optional /\ ~ required_then_optional (hm_args h))
    \/ (e = assert_obj_unused
        /\ exists a, In a (hm_args h) /\ renderable a = false).
Proof.
  intros [name args] e H; simpl hm_args.
  unfold RPCHelpMan_ToString in H; simpl in H.
  destruct (scan_args (mkScan name false) args) as [e'|st] eqn:Hs;
    simpl in H; [|discriminate H].
  inversion H; subst e'. clear H.
  destruct (scan_args_failure _ _ _ Hs) as [[He Hord] | [a [Hin Ha]]].
  - left. split; [exact He | exact Hord].
  - right. split; [exact (proj1 (token_abort_kind a e) Ha)|].
    exists a. split; [exact Hin|].
    apply not_true_is_false. intros Hren.
    apply (proj1 (token_returns_iff a)) in Hren.
    destruct Hren as [t Ht]. congruence.
Qed.

Lemma signature_abort_reasons_witness :
  (assert_not_is_optional = assert_not_is_optional
   /\ ~ required_then_optional
          [mkRPCArg "a" NUM [] true; mkRPCArg "b" NUM [] false])
  \/ (assert_not_is_optional = assert_obj_unused
      /\ exists a,
          In a [mkRPCArg "a" NUM [] true; mkRPCArg "b" NUM [] false]
          /\ renderable a = false).
Proof.
  apply (signature_abort_reasons
           (mkRPCHelpMan "f"
              [mkRPCArg "a" NUM [] true; mkRPCArg "b" NUM [] false])).
  reflexivity.
Defined.

End SignatureOutcomes.

(** ** Keys and scripts: what a returned value and a failure tell *)

Section KeyOutcomes.
Import Keys.
Context {X : Externals}.

(** A key returned by [HexToPubKey] comes from well-formed hexadecimal
    input, is the key built from the decoded bytes, and is fully valid. *)
Theorem HexToPubKey_returns_valid_key :
  forall hex_in key,
    HexToPubKey hex_in = Outcome.ret key ->
    IsHex hex_in = true
    /\ key = CPubKey_of_bytes (ParseHex hex_in)
    /\ IsFullyValid key = true.
Proof.
  intros hex_in key. unfold HexToPubKey.
  destruct (IsHex hex_in); simpl; [|discriminate].
  destruct (IsFullyValid (CPubKey_of_bytes (ParseHex hex_in))) eqn:Hv;
    simpl; [|discriminate].
  intros H; inversion H; subst. auto.
Qed.

(** A key returned by [AddrToPubKey] is the key the store holds for the
    key id of the decoded destination, the destination is valid, the key
    id is not null, and the key is fully valid. *)
Theorem AddrToPubKey_returns_stored_valid_key :
  forall chainparams keystore addr_in key,
    AddrToPubKey chainparams keystore addr_in = Outcome.ret key ->
    IsValidDestination (DecodeDestination addr_in chainparams) = true
    /\ IsNull (GetKeyForDestination keystore
                 (DecodeDestination addr_in chainparams)) = false
    /\ GetPubKey keystore
         (GetKeyForDestination keystore
            (DecodeDestination addr_in chainparams)) = Some key
    /\ IsFullyValid key = true.
Proof.
  intros chainparams keystore addr_in key. unfold AddrToPubKey.
  destruct (IsValidDestination _); simpl; [|discriminate].
  destruct (IsNull _); [discriminate|].
  destruct (GetPubKey _ _) as [k|]; [|discriminate].
  destruct (IsFullyValid k) eqn:Hv; simpl; [|discriminate].
  intros H; inversion H; subst. auto.
Qed.

(** Over a key store that only hands out fully valid keys,
    [AddrToPubKey] never reports an internal error: each of its failures
    carries [RPC_INVALID_ADDRESS_OR_KEY]. *)
Theorem AddrToPubKey_no_internal_error_on_sound_store :
  forall chainparams keystore,
    (forall id key,
        GetPubKey keystore id = Some key -> IsFullyValid key = true) ->
    forall addr_in e,
      AddrToPubKey chainparams keystore addr_in = Outcome.fail e ->
      code e = RPC_INVALID_ADDRESS_OR_KEY.
Proof.
  intros chainparams keystore Hsound addr_in e. unfold AddrToPubKey.
  destruct (IsValidDestination _); simpl;
    [|intros H; inversion H; reflexivity].
  destruct (IsNull _); [intros H; inversion H; reflexivity|].
  destruct (GetPubKey _ _) as [k|] eqn:Hk;
    [|intros H; inversion H; reflexivity].
  rewrite (Hsound _ _ Hk). discriminate.
Qed.

(** [CreateMultisigRedeemscript] returns a script exactly when
    1 <= required <= number of keys <= 16 and the script built by
    [GetScriptForMultisig] is at most [MAX_SCRIPT_ELEMENT_SIZE] bytes; the
    script returned is that script. *)
Theorem CreateMultisigRedeemscript_returns_iff :
  forall required pubkeys script,
    CreateMultisigRedeemscript required pubkeys = Outcome.ret script
    <-> ((1 <= required)%Z
         /\ (required <= Z.of_nat (length pubkeys))%Z
         /\ length pubkeys <= 16
         /\ length (GetScriptForMultisig required pubkeys)
            <= MAX_SCRIPT_ELEMENT_SIZE
         /\ script = GetScriptForMultisig required pubkeys).
Proof.
  intros required pubkeys script. unfold CreateMultisigRedeemscript.
  destruct (Z.ltb_spec required 1) as [H1|H1].
  { split; [discriminate | intros [? _]; lia]. }
  destruct (Nat.ltb_spec 16 (length pubkeys)) as [H16|H16].
  { destruct (_ <? required)%Z;
      (split; [discriminate | intros [_ [_ [? _]]]; lia]). }
  rewrite int_of_size_small by (change (2 ^ 31)%Z with 2147483648%Z; lia).
  destruct (Z.ltb_spec (Z.of_nat (length pubkeys)) required) as [H2|H2].
  { split; [discriminate | intros [_ [? _]]; lia]. }
  destruct (Nat.ltb_spec MAX_SCRIPT_ELEMENT_SIZE
              (length (GetScriptForMultisig required pubkeys))) as [H3|H3].
  { split; [discriminate | intros [_ [_ [_ [? _]]]]; lia]. }
  split.
  - intros H; inversion H; subst. repeat split; assumption.
  - intros [_ [_ [_ [_ ->]]]]. reflexivity.
Qed.

(** Every failure of [CreateMultisigRedeemscript] carries
    [RPC_INVALID_PARAMETER] and is the error of the first check that does
    not hold: required < 1; fewer keys than required; more than 16 keys;
    a script longer than the limit. *)
Theorem CreateMultisigRedeemscript_failure_reasons :
  forall required pubkeys e,
    CreateMultisigRedeemscript required pubkeys = Outcome.fail e ->
    code e = RPC_INVALID_PARAMETER
    /\ (((required < 1)%Z /\ e = threshold_below_one)
        \/ ((1 <= required)%Z
            /\ (int_of_size (length pubkeys) < required)%Z
            /\ e = not_enough_keys (length pubkeys) required)
        \/ ((1 <= required)%Z
            /\ (required <= int_of_size (length pubkeys))%Z
            /\ 16 < length pubkeys
            /\ e = more_than_16_keys)
        \/ ((1 <= required)%Z
            /\ (required <= int_of_size (length pubkeys))%Z
            /\ length pubkeys <= 16
            /\ MAX_SCRIPT_ELEMENT_SIZE
               < length (GetScriptForMultisig required pubkeys)
            /\ e = script_too_large
                     (length (GetScriptForMultisig required pubkeys))
                     MAX_SCRIPT_ELEMENT_SIZE)).
Proof.
  intros required pubkeys e. unfold CreateMultisigRedeemscript.
  destruct (Z.ltb_spec required 1) as [H1|H1].
  { intros H; inversion H; subst. split; [reflexivity | left; auto]. }
  destruct (Z.ltb_spec (int_of_size (length pubkeys)) required) as [H2|H2].
  { intros H; inversion H; subst.
    split; [reflexivity | right; left; auto]. }
  destruct (Nat.ltb_spec 16 (length pubkeys)) as [H16|H16].
  { intros H; inversion H; subst.
    split; [reflexivity | right; right; left; auto]. }
  destruct (Nat.ltb_spec MAX_SCRIPT_ELEMENT_SIZE
              (length (GetScriptForMultisig required pubkeys))) as [H3|H3];
    [|discriminate].
  intros H; inversion H; subst.
  split; [reflexivity | right; right; right; auto].
Qed.

(** With fewer than 2^31 keys the cast does not matter: whenever required
    exceeds the number of keys, the call fails with "not enough keys
    supplied", and the message names both counts. *)
Theorem CreateMultisigRedeemscript_not_enough_keys :
  forall required pubkeys,
    (Z.of_nat (length pubkeys) < 2 ^ 31)%Z ->
    (Z.of_nat (length pubkeys) < required)%Z ->
    CreateMultisigRedeemscript required pubkeys
    = Outcome.fail
        (JSONRPCError RPC_INVALID_PARAMETER
           ("not enough keys supplied (got " ++ dec_size (length pubkeys)
              ++ " keys, but need at least " ++ dec_int required
              ++ " to redeem)")).
Proof.
  intros required pubkeys Hsmall Hlt. unfold CreateMultisigRedeemscript.
  rewrite (int_of_size_small _ Hsmall).
  destruct (Z.ltb_spec required 1); [lia|].
  destruct (Z.ltb_spec (Z.of_nat (length pubkeys)) required); [|lia].
  reflexivity.
Qed.

(** The four failures of [CreateMultisigRedeemscript] have four different
    messages, whatever the counts and sizes they report. *)
Theorem CreateMultisigRedeemscript_errors_distinct :
  forall got required size limit,
    threshold_below_one <> not_enough_keys got required
    /\ threshold_below_one <> more_than_16_keys
    /\ threshold_below_one <> script_too_large size limit
    /\ not_enough_keys got required <> more_than_16_keys
    /\ not_enough_keys got required <> script_too_large size limit
    /\ more_than_16_keys <> script_too_large size limit.
Proof.
  intros got required size limit.
  unfold threshold_below_one, not_enough_keys, more_than_16_keys,
    script_too_large.
  repeat split; intros H; inversion H.
Qed.

End KeyOutcomes.

Section DescribeOutcomes.
Import Keys DestinationKind.

(** Two destinations have the same description exactly when they hold the
    same alternative: the description tells no destination, key id and
    script id apart and shows nothing of the hash. *)
Theorem DescribeAddress_tells_the_alternative :
  forall dest1 dest2,
    DescribeAddress dest1 = DescribeAddress dest2
    <-> which dest1 = which dest2.
Proof.
  intros [|k1|s1] [|k2|s2]; simpl; split; intros H;
    first [reflexivity | discriminate H].
Qed.

End DescribeOutcomes.

Section KeyOutcomeRuns.
Import Keys Sample DestinationKind.

Lemma HexToPubKey_returns_valid_key_witness :
  IsHex "020101010101010101010101010101010101010101010101010101010101010101"
  = true
  /\ compressed_key
     = CPubKey_of_bytes
         (ParseHex
            "020101010101010101010101010101010101010101010101010101010101010101")
  /\ IsFullyValid compressed_key = true.
Proof.
  exact (HexToPubKey_returns_valid_key
           "020101010101010101010101010101010101010101010101010101010101010101"
           compressed_key eq_refl).
Defined.

Lemma AddrToPubKey_returns_stored_valid_key_witness :
  IsValidDestination (DecodeDestination "key-address" tt) = true
  /\ IsNull (GetKeyForDestination store (DecodeDestination "key-address" tt))
     = false
  /\ GetPubKey store
       (GetKeyForDestination store (DecodeDestination "key-address" tt))
     = Some compressed_key
  /\ IsFullyValid compressed_key = true.
Proof.
  exact (AddrToPubKey_returns_stored_valid_key (X:=externals)
           tt store "key-address" compressed_key eq_refl).
Defined.

Lemma AddrToPubKey_no_internal_error_on_sound_store_witness :
  code (no_full_key "lost-key-address") = RPC_INVALID_ADDRESS_OR_KEY.
Proof.
  refine (AddrToPubKey_no_internal_error_on_sound_store (X:=externals)
            tt [(key_hash, compressed_key)] _
            "lost-key-address" (no_full_key "lost-key-address") eq_refl).
  intros id key. simpl.
  destruct (bytes_eqb key_hash (keyid_blob id)); [|discriminate].
  intros H; inversion H; reflexivity.
Defined.

Lemma CreateMultisigRedeemscript_returns_iff_witness :
  CreateMultisigRedeemscript 2 (repeat compressed_key 3)
  = Outcome.ret (GetScriptForMultisig 2 (repeat compressed_key 3))
  /\ (1 <= 2)%Z.
Proof.
  split.
  - apply (proj2 (CreateMultisigRedeemscript_returns_iff (X:=externals)
                    2 (repeat compressed_key 3)
                    (GetScriptForMultisig 2 (repeat compressed_key 3)))).
    split; [lia|]. split; [simpl; lia|]. split; [simpl; lia|].
    split; [vm_compute; lia | reflexivity].
  - exact (proj1 (proj1 (CreateMultisigRedeemscript_returns_iff
                           (X:=externals) 2 (repeat compressed_key 3)
                           (GetScriptForMultisig 2 (repeat compressed_key 3)))
                    eq_refl)).
Defined.

Lemma CreateMultisigRedeemscript_failure_reasons_witness :
  code threshold_below_one = RPC_INVALID_PARAMETER.
Proof.
  exact (proj1 (CreateMultisigRedeemscript_failure_reasons (X:=externals)
                  0 (repeat compressed_key 17) threshold_below_one eq_refl)).
Defined.

Lemma CreateMultisigRedeemscript_not_enough_keys_witness :
  CreateMultisigRedeemscript 3 (repeat compressed_key 2)
  = Outcome.fail
      (JSONRPCError RPC_INVALID_PARAMETER
         "not enough keys supplied (got 2 keys, but need at least 3 to redeem)").
Proof.
  apply (CreateMultisigRedeemscript_not_enough_keys (X:=externals)
           3 (repeat compressed_key 2)); simpl; lia.
Defined.

Lemma DescribeAddress_tells_the_alternative_witness :
  DescribeAddress (KeyDest (mkCKeyID key_hash))
  = DescribeAddress (KeyDest (mkCKeyID lost_key_hash))
  /\ which (ScriptDest (mkCScriptID script_hash))
     <> which (KeyDest (mkCKeyID key_hash)).
Proof.
  split.
  - apply (proj2 (DescribeAddress_tells_the_alternative
                    (KeyDest (mkCKeyID key_hash))
                    (KeyDest (mkCKeyID lost_key_hash)))).
    reflexivity.
  - intros H.
    apply (proj2 (DescribeAddress_tells_the_alternative
                    (ScriptDest (mkCScriptID script_hash))
                    (KeyDest (mkCKeyID key_hash)))) in H.
    discriminate H.
Defined.

End KeyOutcomeRuns.

(** ** A required argument after an optional one *)

Section RequiredAfterOptional.
Import Help HelpShape.

(** C6, amended.  When a required argument [r] comes after an optional
    one, [RPCHelpMan::ToString] returns no text, whatever follows [r]: the
    rendering aborts.  The abort is [assert(!is_optional)] whenever the
    tokens of the arguments before [r] render.  When [r] is the first such
    argument, that is the arguments before it are required ones followed
    by optional ones, and the token of one of them does not render, the
    abort is the [assert(false)] of [RPCArg::ToStringObj] instead. *)
Theorem signature_required_after_optional :
  forall name pre r post,
    (exists a, In a pre /\ m_optional a = true) ->
    m_optional r = false ->
    (exists e,
        RPCHelpMan_ToString (mkRPCHelpMan name (pre ++ r :: post))
        = Outcome.fail e)
    /\ ((forall a, In a pre -> Outcome.returns (ToString a)) ->
        RPCHelpMan_ToString (mkRPCHelpMan name (pre ++ r :: post))
        = Outcome.fail assert_not_is_optional)
    /\ (required_then_optional pre ->
        (exists a, In a pre /\ ~ Outcome.returns (ToString a)) ->
        RPCHelpMan_ToString (mkRPCHelpMan name (pre ++ r :: post))
        = Outcome.fail assert_obj_unused).
Proof.
  intros name pre r post Hopt Hr.
  destruct (required_after_optional_aborts name pre r post Hopt Hr)
    as [Hsome Horder].
  split; [exact Hsome | split; [exact Horder|]].
  intros Hpre [a [Hin Ha]].
  unfold RPCHelpMan_ToString; simpl hm_args; simpl hm_name.
  rewrite scan_args_app.
  destruct (scan_args (mkScan ("" ++ name) false) pre) as [e|st] eqn:Hscan.
  - destruct (scan_args_failure _ _ _ Hscan) as [[_ Hbad] | [b [_ Hb]]].
    + simpl in Hbad. contradiction.
    + rewrite (proj1 (token_abort_kind b e) Hb). reflexivity.
  - destruct (scan_args_success _ _ _ Hscan) as [Htoks _].
    rewrite Forall_forall in Htoks. elim Ha. exact (Htoks a Hin).
Qed.

Lemma signature_required_after_optional_witness :
  RPCHelpMan_ToString
    (mkRPCHelpMan "foo"
       [mkRPCArg "optional_a" NUM [] true;
        mkRPCArg "required_b" NUM [] false])
  = Outcome.fail assert_not_is_optional
  /\ RPCHelpMan_ToString
       (mkRPCHelpMan "foo"
          [mkRPCArg "optional_a" OBJ [mkRPCArg "k" OBJ [] false] true;
           mkRPCArg "required_b" NUM [] false])
     = Outcome.fail assert_obj_unused.
Proof.
  split.
  - refine (proj1 (proj2 (signature_required_after_optional "foo"
                            [mkRPCArg "optional_a" NUM [] true]
                            (mkRPCArg "required_b" NUM [] false) [] _ _)) _).
    + exists (mkRPCArg "optional_a" NUM [] true).
      split; [left; reflexivity | reflexivity].
    + reflexivity.
    + intros a [<- | []]. exists "optional_a". reflexivity.
  - refine (proj2 (proj2 (signature_required_after_optional "foo"
                            [mkRPCArg "optional_a" OBJ
                               [mkRPCArg "k" OBJ [] false] true]
                            (mkRPCArg "required_b" NUM [] false) [] _ _))
              _ _).
    + exists (mkRPCArg "optional_a" OBJ [mkRPCArg "k" OBJ [] false] true).
      split; [left; reflexivity | reflexivity].
    + reflexivity.
    + exists [],
        [mkRPCArg "optional_a" OBJ [mkRPCArg "k" OBJ [] false] true].
      split; [reflexivity | split; repeat constructor].
    + exists (mkRPCArg "optional_a" OBJ [mkRPCArg "k" OBJ [] false] true).
      split; [left; reflexivity|]. intros [t Ht]. discriminate Ht.
Defined.

End RequiredAfterOptional.
